(** * GitLab review sync: the diff line locator and the comment dispatch

    A shallow embedding of [src/skills/gitlab-review/api.mjs]:
    [findLineInDiff] (the locator the specification calls [locate]) with the
    library operations it calls ([String.prototype.split], [match],
    [startsWith], [parseInt]), and [postDiscussion] with the helpers
    [postSummary], [postFallbackNote] and [formatMessage].

    Conventions.  A JavaScript string is its sequence of UTF-16 code units
    ([list N]).  A JavaScript number that counts lines is an integer ([Z]);
    the counters of the source are doubles, which agree with [Z] below 2^53.
    An exception is an explicit [Thrown] completion. *)

From Stdlib Require Import String Ascii List ZArith NArith Bool Lia DecimalString.
Import ListNotations.

Local Open Scope N_scope.

(** ** JavaScript strings *)

Definition code_unit := N.
Definition jsstring := list code_unit.

(** An ASCII literal as a JavaScript string. *)
Definition js (s : string) : jsstring :=
  List.map N_of_ascii (list_ascii_of_string s).

Definition ch_nl : code_unit := 10.
Definition ch_cr : code_unit := 13.
Definition ch_ls : code_unit := 8232.   (* U+2028 *)
Definition ch_ps : code_unit := 8233.   (* U+2029 *)
Definition ch_space : code_unit := 32.
Definition ch_plus : code_unit := 43.
Definition ch_comma : code_unit := 44.
Definition ch_minus : code_unit := 45.
Definition ch_at : code_unit := 64.

(** ECMAScript LineTerminator: what [^] looks behind for under the [m] flag. *)
Definition isLineTerminator (c : code_unit) : bool :=
  (c =? ch_nl) || (c =? ch_cr) || (c =? ch_ls) || (c =? ch_ps).

(** [\d] without the unicode flag: 0-9. *)
Definition isDigit (c : code_unit) : bool := (48 <=? c) && (c <=? 57).

(** [s.startsWith(c)] for a one-character search string. *)
Definition startsWith (s : jsstring) (c : code_unit) : bool :=
  match s with
  | x :: _ => x =? c
  | [] => false
  end.

(** [s.split(sep)] for a one-character separator string: never empty,
    [''.split(sep)] is [['']]. *)
Fixpoint splitOn (sep : code_unit) (s : jsstring) : list jsstring :=
  match s with
  | [] => [[]]
  | c :: t =>
      if c =? sep then [] :: splitOn sep t
      else match splitOn sep t with
           | h :: r => (c :: h) :: r
           | [] => [[c]]
           end
  end.

(** [parseInt] on a run of decimal digits, the only strings the header
    pattern captures: the decimal value, leading zeros allowed. *)
Definition digitValue (c : code_unit) : Z := Z.of_N (c - 48).

Definition parseInt (ds : jsstring) : Z :=
  fold_left (fun acc c => (10 * acc + digitValue c)%Z) ds 0%Z.

(** ** Regular expressions

    The fragment of ECMAScript patterns the source uses, with the
    backtracking semantics of the language: quantifiers are greedy, an
    alternative is abandoned only when everything after it fails, and a
    capture holds what its group consumed on the successful path. *)

Inductive regex : Type :=
| RChar (c : code_unit)          (* a literal character *)
| RDigit                         (* \d *)
| RBol                           (* ^ under the m flag *)
| RSeq (r1 r2 : regex)
| ROpt (r : regex)               (* r? *)
| RStar (r : regex)              (* r* *)
| RGroup (r : regex).            (* ( r ) *)

(** [r+] for a group-free [r]. *)
Definition RPlus (r : regex) : regex := RSeq r (RStar r).

Fixpoint RCat (rs : list regex) (last : regex) : regex :=
  match rs with
  | [] => last
  | r :: rs' => RSeq r (RCat rs' last)
  end.

(** A position in the subject: the code unit before it (none at index 0)
    and the text from it on. *)
Definition cursor := (option code_unit * jsstring)%type.

Definition atLineStart (prev : option code_unit) : bool :=
  match prev with
  | None => true
  | Some c => isLineTerminator c
  end.

Section Matcher.
Context {A : Type}.

(** [r*]: [step] matches [r] once; an iteration that consumes nothing is
    rejected, so [fuel] above the length of the text is never exhausted. *)
Fixpoint starLoop
         (step : cursor -> list jsstring ->
                 (cursor -> list jsstring -> option A) -> option A)
         (k : cursor -> list jsstring -> option A)
         (fuel : nat) (cur : cursor) (caps : list jsstring) : option A :=
  match fuel with
  | O => k cur caps
  | S fuel' =>
      match step cur caps
              (fun cur' caps' =>
                 if (length (snd cur') <? length (snd cur))%nat
                 then starLoop step k fuel' cur' caps' else None) with
      | Some a => Some a
      | None => k cur caps
      end
  end.

(** The matcher in continuation-passing style: [k] is the rest of the
    pattern, [caps] the captures completed so far. *)
Fixpoint rmatch (r : regex) (cur : cursor) (caps : list jsstring)
         (k : cursor -> list jsstring -> option A) {struct r} : option A :=
  match r with
  | RChar c =>
      match snd cur with
      | x :: t => if x =? c then k (Some x, t) caps else None
      | [] => None
      end
  | RDigit =>
      match snd cur with
      | x :: t => if isDigit x then k (Some x, t) caps else None
      | [] => None
      end
  | RBol => if atLineStart (fst cur) then k cur caps else None
  | RSeq r1 r2 => rmatch r1 cur caps (fun cur' caps' => rmatch r2 cur' caps' k)
  | ROpt r1 =>
      match rmatch r1 cur caps k with
      | Some a => Some a
      | None => k cur caps
      end
  | RStar r1 => starLoop (rmatch r1) k (S (length (snd cur))) cur caps
  | RGroup r1 =>
      rmatch r1 cur caps
        (fun cur' caps' =>
           k cur' (caps' ++ [firstn (length (snd cur) - length (snd cur')) (snd cur)]))
  end.
End Matcher.

(** One attempt at a fixed index: the end cursor and the captures. *)
Definition matchAt (r : regex) (cur : cursor) : option (cursor * list jsstring) :=
  rmatch r cur [] (fun cur' caps => Some (cur', caps)).

(** [RegExp.prototype.exec] for a pattern without the [g] and [y] flags,
    as [String.prototype.match] calls it: the match at the least index;
    the result array holds the matched text, then the captures. *)
Fixpoint execFrom (r : regex) (prev : option code_unit) (s : jsstring)
  : option (list jsstring) :=
  match matchAt r (prev, s) with
  | Some (cur', caps) => Some (firstn (length s - length (snd cur')) s :: caps)
  | None =>
      match s with
      | [] => None
      | c :: t => execFrom r (Some c) t
      end
  end.

Definition jsMatch (s : jsstring) (r : regex) : option (list jsstring) :=
  execFrom r None s.

(** [String.prototype.split] with a pattern separator that has no groups.
    [piece] is the text since the end of the last separator, reversed;
    a match that ends where the piece began (an empty match on an empty
    piece) is passed over, as is the end of the subject. *)
Fixpoint splitLoop (fuel : nat) (r : regex) (prev : option code_unit)
         (piece : jsstring) (s : jsstring) : list jsstring :=
  match fuel with
  | O => [rev piece ++ s]
  | S fuel' =>
      match s with
      | [] => [rev piece]
      | c :: t =>
          let advance := splitLoop fuel' r (Some c) (c :: piece) t in
          match matchAt r (prev, s) with
          | None => advance
          | Some (cur', _) =>
              if ((length (snd cur') =? length s)%nat && (length piece =? 0)%nat)%bool
              then advance
              else rev piece :: splitLoop fuel' r (fst cur') [] (snd cur')
          end
      end
  end.

Definition jsSplit (s : jsstring) (r : regex) : list jsstring :=
  match s with
  | [] => match matchAt r (None, []) with Some _ => [] | None => [[]] end
  | _ => splitLoop (2 * length s + 1) r None [] s
  end.

(** ** Completions *)

Inductive jsError : Type :=
| TypeError
| RequestError.      (* a rejected promise of the HTTP client *)

Inductive completion (A : Type) : Type :=
| Returned (a : A)
| Thrown (e : jsError).
Arguments Returned {A} a.
Arguments Thrown {A} e.

Definition bind {A B} (m : completion A) (f : A -> completion B) : completion B :=
  match m with
  | Returned a => f a
  | Thrown e => Thrown e
  end.

Notation "x <- m ;; k" := (bind m (fun x => k))
  (at level 61, m at next level, right associativity).

(** [m[i]] on the result of [match]: reading an index of [null] throws,
    a missing index reads as a value that [parseInt] cannot see here
    (the header pattern always fills both groups). *)
Definition getIndex (m : option (list jsstring)) (i : nat) : completion jsstring :=
  match m with
  | None => Thrown TypeError
  | Some arr => Returned (nth i arr [])
  end.

(** ** findLineInDiff *)

(** [/^@@/m] *)
Definition hunkMark : regex := RCat [RBol; RChar ch_at] (RChar ch_at).

(** [/ -(\d+),?\d* \+(\d+),?\d* @@/] *)
Definition headerPattern : regex :=
  RCat [RChar ch_space; RChar ch_minus; RGroup (RPlus RDigit);
        ROpt (RChar ch_comma); RStar RDigit;
        RChar ch_space; RChar ch_plus; RGroup (RPlus RDigit);
        ROpt (RChar ch_comma); RStar RDigit;
        RChar ch_space; RChar ch_at] (RChar ch_at).

Record LinePosition : Type := mkPos {
  oldLine : option Z;    (* [None] is the source's [null] *)
  newLine : Z
}.

(** How the walk over one hunk's lines ends. *)
Inductive scan : Type :=
| Matched (p : LinePosition)     (* [return] *)
| EarlyExit                      (* [break] *)
| Exhausted.                     (* the lines ran out *)

Local Open Scope Z_scope.

Fixpoint walkLines (lines : list jsstring) (oldL newL target : Z) : scan :=
  match lines with
  | [] => Exhausted
  | line :: rest =>
      if startsWith line ch_minus then
        let oldL := oldL + 1 in
        if newL >? target then EarlyExit else walkLines rest oldL newL target
      else if startsWith line ch_plus then
        if newL =? target then Matched (mkPos None newL)
        else
          let newL := newL + 1 in
          if newL >? target then EarlyExit else walkLines rest oldL newL target
      else
        if newL =? target then Matched (mkPos (Some oldL) newL)
        else
          let oldL := oldL + 1 in
          let newL := newL + 1 in
          if newL >? target then EarlyExit else walkLines rest oldL newL target
  end.

(** The body of the loop over hunks, for one hunk: [None] is [continue]
    at the header test. *)
Definition scanHunk (hunk : jsstring) (target : Z) : completion (option scan) :=
  let headerMatch := jsMatch hunk headerPattern in
  match headerMatch with
  | None => Returned None
  | Some _ =>
      g1 <- getIndex headerMatch 1 ;;
      g2 <- getIndex headerMatch 2 ;;
      let oldL := parseInt g1 in
      let newL := parseInt g2 in
      let lines := skipn 1 (splitOn ch_nl hunk) in
      Returned (Some (walkLines lines oldL newL target))
  end.

Fixpoint scanHunks (hunks : list jsstring) (target : Z)
  : completion (option LinePosition) :=
  match hunks with
  | [] => Returned None
  | hunk :: rest =>
      r <- scanHunk hunk target ;;
      match r with
      | Some (Matched p) => Returned (Some p)
      | _ => scanHunks rest target
      end
  end.

Definition findLineInDiff (diffText : jsstring) (targetNewLine : Z)
  : completion (option LinePosition) :=
  match diffText with
  | [] => Returned None
  | _ =>
      let hunks := skipn 1 (jsSplit diffText hunkMark) in
      scanHunks hunks targetNewLine
  end.

(** ** The two patterns in closed form

    What the matcher computes on [hunkMark] and on [headerPattern], as
    direct recursive functions; the equations below relate them to
    [jsSplit] and [jsMatch]. *)

Local Open Scope N_scope.

(** The text before the first line that begins with [@@], and the
    segments after each such line start.  [bol] tells whether the first
    position is at the start of a line. *)
Fixpoint cutMarks (bol : bool) (s : jsstring) : jsstring * list jsstring :=
  match s with
  | [] => ([], [])
  | c :: t =>
      let keep := let '(h, hs) := cutMarks (isLineTerminator c) t in (c :: h, hs) in
      if bol && (c =? ch_at) then
        match t with
        | c' :: rest =>
            if c' =? ch_at
            then let '(h, hs) := cutMarks false rest in ([], h :: hs)
            else keep
        | [] => keep
        end
      else keep
  end.

(** The longest run of digits at the cursor, and the cursor after it. *)
Fixpoint spanDigits (prev : option code_unit) (s : jsstring) : jsstring * cursor :=
  match s with
  | x :: t =>
      if isDigit x
      then let '(ds, cur) := spanDigits (Some x) t in (x :: ds, cur)
      else ([], (prev, s))
  | [] => ([], (prev, s))
  end.

Definition skipComma (cur : cursor) : cursor :=
  match snd cur with
  | x :: t => if x =? ch_comma then (Some x, t) else cur
  | [] => cur
  end.

Definition expect (c : code_unit) (cur : cursor) : option cursor :=
  match snd cur with
  | x :: t => if x =? c then Some (Some x, t) else None
  | [] => None
  end.

(** [(\d+),?\d*]: the captured run and the cursor after the field. *)
Definition rangeField (cur : cursor) : option (jsstring * cursor) :=
  let '(ds, cur1) := spanDigits (fst cur) (snd cur) in
  match ds with
  | [] => None
  | _ => let cur2 := skipComma cur1 in
         Some (ds, snd (spanDigits (fst cur2) (snd cur2)))
  end.

Definition optBind {A B} (o : option A) (f : A -> option B) : option B :=
  match o with
  | Some a => f a
  | None => None
  end.

(** The header pattern tried at one cursor: both captures and the end. *)
Definition headerAt (cur : cursor) : option (jsstring * jsstring * cursor) :=
  optBind (expect ch_space cur) (fun c1 =>
  optBind (expect ch_minus c1) (fun c2 =>
  optBind (rangeField c2) (fun '(g1, c3) =>
  optBind (expect ch_space c3) (fun c4 =>
  optBind (expect ch_plus c4) (fun c5 =>
  optBind (rangeField c5) (fun '(g2, c6) =>
  optBind (expect ch_space c6) (fun c7 =>
  optBind (expect ch_at c7) (fun c8 =>
  optBind (expect ch_at c8) (fun c9 =>
  Some (g1, g2, c9)))))))))).

(** ** Parts of the header pattern and the texts it matches *)

(** The end of every match attempt: the cursor and the captures. *)
Definition finalK : cursor -> list jsstring -> option (cursor * list jsstring) :=
  fun cur caps => Some (cur, caps).

(** [ \+(\d+),?\d* @@], the second half of the header pattern. *)
Definition secondHalf : regex :=
  RSeq (RChar ch_plus)
    (RSeq (RGroup (RPlus RDigit))
       (RSeq (ROpt (RChar ch_comma))
          (RSeq (RStar RDigit)
             (RSeq (RChar ch_space) (RSeq (RChar ch_at) (RChar ch_at)))))).

(** The rest of a match that goes on with a blank and then [K2]. *)
Definition blankThen {A : Type} (K2 : cursor -> list jsstring -> option A)
  : cursor -> list jsstring -> option A :=
  fun cur c => rmatch (RChar ch_space) cur c K2.

(** The rest of a match after the captured run: [,?\d*], a blank, [K2]. *)
Definition afterRun {A : Type} (K2 : cursor -> list jsstring -> option A)
  : cursor -> list jsstring -> option A :=
  fun cur c => rmatch (ROpt (RChar ch_comma)) cur c
                 (fun c2 p2 => rmatch (RStar RDigit) c2 p2 (blankThen K2)).

(** The texts the header pattern matches:
    [ -N[,M] +C[,D] @@] with [N], [C] non-empty runs of digits and [M],
    [D] runs of digits that may be empty. *)

Definition digitRun (d : jsstring) : Prop := forallb isDigit d = true.

Inductive optCount : jsstring -> Prop :=
| NoCount : optCount []
| Count (e : jsstring) : digitRun e -> optCount (ch_comma :: e).

Inductive isHeader (N C : jsstring) : jsstring -> Prop :=
| IsHeader (m d : jsstring) :
    N <> [] -> digitRun N -> optCount m ->
    C <> [] -> digitRun C -> optCount d ->
    isHeader N C
      ([ch_space; ch_minus] ++ N ++ m ++ [ch_space; ch_plus] ++ C ++ d
         ++ [ch_space; ch_at; ch_at]).

(** An occurrence of the header pattern in [h] after [before]. *)
Definition occursAfter (h before N C occ after : jsstring) : Prop :=
  h = before ++ occ ++ after /\ isHeader N C occ.

(** No occurrence starts earlier than after [before]. *)
Definition noneEarlier (h before : jsstring) : Prop :=
  forall b N C o a, occursAfter h b N C o a -> (length before <= length b)%nat.

Ltac case_headerAt E :=
  match goal with
  | |- context [headerAt ?c] =>
      destruct (headerAt c) as [[[g1 g2] cur']|] eqn:E
  end.

(** ** The data of a run *)

Local Open Scope Z_scope.

Record ReviewComment : Type := mkComment {
  file : jsstring;
  line : Z;
  description : jsstring;
  suggestion : option jsstring     (* [None]: the field is missing *)
}.

(** An entry of the list the [/diffs] endpoint returns. *)
Record FileChange : Type := mkChange {
  new_path : jsstring;
  old_path : jsstring;
  diff : jsstring
}.

Record DiffRefs : Type := mkRefs {
  base_sha : jsstring;
  head_sha : jsstring;
  start_sha : jsstring
}.

(** What [postDiscussion] reads of the merge request. *)
Record MrInfo : Type := mkMr {
  diff_refs : DiffRefs;
  web_url : jsstring
}.

Record PositionData : Type := mkPosition {
  pos_base_sha : jsstring;
  pos_head_sha : jsstring;
  pos_start_sha : jsstring;
  pos_new_path : jsstring;
  pos_old_path : jsstring;
  position_type : jsstring;
  new_line : Z;
  old_line : option Z
}.

(** [a === b] on strings. *)
Fixpoint strEq (a b : jsstring) : bool :=
  match a, b with
  | [], [] => true
  | x :: a', y :: b' => (x =? y)%N && strEq a' b'
  | _, _ => false
  end.

(** Truthiness of a string: the empty string is falsy. *)
Definition truthy (s : jsstring) : bool :=
  match s with
  | [] => false
  | _ => true
  end.

(** [String(n)] for an integer. *)
Definition numToString (n : Z) : jsstring :=
  js (NilZero.string_of_int (Z.to_int n)).

Fixpoint isPrefix (p s : jsstring) : bool :=
  match p, s with
  | [], _ => true
  | x :: p', y :: s' => (x =? y)%N && isPrefix p' s'
  | _ :: _, [] => false
  end.

(** [s.split(sep)[0]] for a non-empty [sep]: the text before the first
    occurrence of [sep], all of [s] when there is none. *)
Fixpoint beforeFirst (sep s : jsstring) : jsstring :=
  match s with
  | [] => []
  | c :: t => if isPrefix sep s then [] else c :: beforeFirst sep t
  end.

(** The closing remark of a fallback note (an emoji and a sentence in
    Chinese), by its code units. *)
Definition fallbackRemark : jsstring :=
  [42; 55357; 56481; 32; 27492; 34892; 19981; 22312; 26412; 27425; 32; 77;
   82; 32; 30340; 30452; 25509; 32; 68; 105; 102; 102; 32; 33539; 22260;
   20869; 65292; 28857; 20987; 19978; 26041; 25991; 20214; 21517; 38142;
   25509; 21487; 22312; 25991; 20214; 27983; 35272; 22120; 20013; 26597;
   30475; 23545; 24212; 20301; 32622; 12290; 42]%N.

Definition emojiRobot : jsstring := [55358; 56598]%N.
Definition emojiCheck : jsstring := [9989]%N.
Definition emojiInfo : jsstring := [8505; 65039]%N.

Definition formatMessage (c : ReviewComment) (fileLineUrl : jsstring)
           (isFallback : bool) : jsstring :=
  let msg :=
    js "**Issue:** " ++ description c ++ [ch_nl]
    ++ match suggestion c with
       | Some s =>
           if truthy s
           then js "**Suggestion:**" ++ [ch_nl] ++ js "```vue" ++ [ch_nl]
                ++ s ++ [ch_nl] ++ js "```"
           else []
       | None => []
       end in
  if isFallback then
    (js "**File:** [" ++ file c ++ js " (Line " ++ numToString (line c)
     ++ js ")](" ++ fileLineUrl ++ js ")" ++ [ch_nl])
    ++ msg
    ++ ([ch_nl; ch_nl] ++ js "---" ++ [ch_nl] ++ fallbackRemark)
  else msg.

(** The body of the summary note. *)
Definition summaryBody (total success fallback : Z) : jsstring :=
  js "### " ++ emojiRobot ++ js " Code Review Sync Summary" ++ [ch_nl]
  ++ js "- **Total Issues Found:** " ++ numToString total ++ [ch_nl]
  ++ js "- **Positional Comments:** " ++ numToString success ++ js " "
  ++ emojiCheck ++ [ch_nl]
  ++ js "- **Legacy Code Notes:** " ++ numToString fallback ++ js " "
  ++ emojiInfo ++ [ch_nl]
  ++ js "- **Status:** Sync completed successfully.".

(** ** The remote service and the trace of a run

    The requests of one run share the host, the project and the merge
    request; a request is named by its endpoint and its payload. *)

Inductive request : Type :=
| GetMr                                                   (* GET  .../merge_requests/:iid *)
| GetDiffs                                                (* GET  .../merge_requests/:iid/diffs *)
| PostDiscussionReq (body : jsstring) (position : PositionData)
                                                          (* POST .../discussions *)
| PostNoteReq (body : jsstring).                          (* POST .../notes *)

Inductive logLevel : Type := ConsoleLog | ConsoleWarn | ConsoleError.

(** The console lines of [postDiscussion] and its helpers. *)
Inductive logLine : Type :=
| SuccessPositional (file : jsstring) (line : Z)
| WarnPositionalFailed (file : jsstring) (line : Z)
| FallbackPosted (file : jsstring) (line : Z)
| ErrorFallbackFailed
| WarnSummaryFailed
| FatalApiError.


Inductive event : Type :=
| Sent (r : request) (ok : bool)       (* a request and whether it succeeded *)
| Logged (l : logLine).

Definition trace := list event.

(** The remote service: what the two fetches return when they succeed
    (data of the documented shape), and whether it accepts a request,
    which may depend on everything that happened before. *)
Record service : Type := mkService {
  fetchMr : option MrInfo;
  fetchDiffs : option (list FileChange);
  accepts : trace -> request -> bool
}.

Definition isSome {A} (o : option A) : bool :=
  match o with
  | Some _ => true
  | None => false
  end.

(** Computations with effects on the trace; a throw keeps the trace. *)
Definition M (A : Type) : Type := trace -> completion A * trace.

Definition retM {A} (a : A) : M A := fun tr => (Returned a, tr).

Definition bindM {A B} (m : M A) (f : A -> M B) : M B :=
  fun tr =>
    match m tr with
    | (Returned a, tr') => f a tr'
    | (Thrown e, tr') => (Thrown e, tr')
    end.

Notation "x <~ m ;; k" := (bindM m (fun x => k))
  (at level 61, m at next level, right associativity).
Notation "m ;;; k" := (bindM m (fun _ => k))
  (at level 61, right associativity).

(** [try { m } catch (e) { handler e }] *)
Definition tryCatch {A} (m : M A) (handler : jsError -> M A) : M A :=
  fun tr =>
    match m tr with
    | (Returned a, tr') => (Returned a, tr')
    | (Thrown e, tr') => handler e tr'
    end.

Definition liftC {A} (c : completion A) : M A := fun tr => (c, tr).

Definition console (l : logLine) : M unit :=
  fun tr => (Returned tt, tr ++ [Logged l]).

(** [await axios.post(...)]: throws when the service rejects. *)
Definition axiosPost (svc : service) (r : request) : M unit :=
  fun tr =>
    if accepts svc tr r
    then (Returned tt, tr ++ [Sent r true])
    else (Thrown RequestError, tr ++ [Sent r false]).

(** [await Promise.all([axios.get(mrUrl), axios.get(diffUrl)])]: both
    requests are sent; it throws when either fails. *)
Definition fetchBoth (svc : service) : M (MrInfo * list FileChange) :=
  fun tr =>
    let tr' := tr ++ [Sent GetMr (isSome (fetchMr svc));
                      Sent GetDiffs (isSome (fetchDiffs svc))] in
    match fetchMr svc, fetchDiffs svc with
    | Some mr, Some changes => (Returned (mr, changes), tr')
    | _, _ => (Thrown RequestError, tr')
    end.

(** ** postDiscussion and its helpers *)

Definition postSummary (svc : service) (success fallback total : Z) : M unit :=
  let body := summaryBody total success fallback in
  tryCatch (axiosPost svc (PostNoteReq body))
           (fun e => console WarnSummaryFailed).

Definition postFallbackNote (svc : service) (comment : ReviewComment)
           (body : jsstring) : M bool :=
  tryCatch (axiosPost svc (PostNoteReq body) ;;;
            console (FallbackPosted (file comment) (line comment)) ;;;
            retM true)
           (fun err => console ErrorFallbackFailed ;;; retM false).

(** [changes.find(c => c.new_path === comment.file || c.old_path === comment.file)] *)
Definition findChange (changes : list FileChange) (comment : ReviewComment)
  : option FileChange :=
  find (fun c => strEq (new_path c) (file comment)
                 || strEq (old_path c) (file comment)) changes.

(** The [positionData] of a comment: null unless its file is among the
    changes with a non-empty diff in which the line is found. *)
Definition positionFor (diffRefs : DiffRefs) (changes : list FileChange)
           (comment : ReviewComment) : completion (option PositionData) :=
  match findChange changes comment with
  | Some fileChange =>
      if truthy (diff fileChange) then
        lineInfo <- findLineInDiff (diff fileChange) (line comment) ;;
        match lineInfo with
        | Some li =>
            Returned (Some (mkPosition (base_sha diffRefs) (head_sha diffRefs)
                              (start_sha diffRefs) (new_path fileChange)
                              (old_path fileChange) (js "text")
                              (newLine li) (oldLine li)))
        | None => Returned None
        end
      else Returned None
  | None => Returned None
  end.

Definition fileLineUrlOf (mrWebUrl : jsstring) (diffRefs : DiffRefs)
           (comment : ReviewComment) : jsstring :=
  mrWebUrl ++ js "/-/blob/" ++ head_sha diffRefs ++ js "/" ++ file comment
  ++ js "#L" ++ numToString (line comment).

Section Run.
Variable svc : service.
Variable mrWebUrl : jsstring.
Variable diffRefs : DiffRefs.
Variable changes : list FileChange.

(** The positional attempt: [true] when the post went through (the
    [continue] of the source), [false] when there is no position or the
    post was rejected and caught. *)
Definition tryPositional (comment : ReviewComment) (fileLineUrl : jsstring)
           (positionData : option PositionData) : M bool :=
  match positionData with
  | Some pd =>
      tryCatch
        (let body := formatMessage comment fileLineUrl false in
         axiosPost svc (PostDiscussionReq body pd) ;;;
         console (SuccessPositional (file comment) (line comment)) ;;;
         retM true)
        (fun error =>
           console (WarnPositionalFailed (file comment) (line comment)) ;;;
           retM false)
  | None => retM false
  end.

(** One iteration of the loop over the comments, from the counters before
    it to the counters after it. *)
Definition processComment (comment : ReviewComment) (counts : Z * Z) : M (Z * Z) :=
  let '(successCount, fallbackCount) := counts in
  let fileLineUrl := fileLineUrlOf mrWebUrl diffRefs comment in
  positionData <~ liftC (positionFor diffRefs changes comment) ;;
  posted <~ tryPositional comment fileLineUrl positionData ;;
  if posted then retM (successCount + 1, fallbackCount)
  else
    let fallbackBody := formatMessage comment fileLineUrl true in
    ok <~ postFallbackNote svc comment fallbackBody ;;
    retM (successCount, if ok then fallbackCount + 1 else fallbackCount).

Fixpoint forComments (comments : list ReviewComment) (counts : Z * Z) : M (Z * Z) :=
  match comments with
  | [] => retM counts
  | comment :: rest =>
      counts' <~ processComment comment counts ;;
      forComments rest counts'
  end.
End Run.

Definition postDiscussion (svc : service) (comments : list ReviewComment) : M unit :=
  tryCatch
    (responses <~ fetchBoth svc ;;
     let '(mr, changes) := responses in
     let diffRefs := diff_refs mr in
     let mrWebUrl := beforeFirst (js "/-/merge_requests") (web_url mr) in
     counts <~ forComments svc mrWebUrl diffRefs changes comments (0, 0) ;;
     postSummary svc (fst counts) (snd counts) (Z.of_nat (length comments)))
    (fun error => console FatalApiError).

(** ** Vocabulary of the statements *)

(** The hunk segments [findLineInDiff] iterates over. *)
Definition hunks (diffText : jsstring) : list jsstring :=
  skipn 1 (jsSplit diffText hunkMark).

(** The body lines of a segment: all its lines but the first. *)
Definition bodyLines (hunk : jsstring) : list jsstring :=
  skipn 1 (splitOn ch_nl hunk).

(** The number of lines that do not begin with [c]. *)
Fixpoint countNot (c : code_unit) (lines : list jsstring) : Z :=
  match lines with
  | [] => 0%Z
  | l :: rest => ((if startsWith l c then 0 else 1) + countNot c rest)%Z
  end.

(** Index [i] of [s] is the start of a line, [bol] telling it for index 0. *)
Definition lineStartAt (bol : bool) (s : jsstring) (i : nat) : Prop :=
  match i with
  | O => bol = true
  | S j => exists c, nth_error s j = Some c /\ isLineTerminator c = true
  end.

(** A line that begins with [@@] starts at index [i]. *)
Definition markAtB (bol : bool) (s : jsstring) (i : nat) : Prop :=
  lineStartAt bol s i /\ firstn 2 (skipn i s) = [ch_at; ch_at].

Definition markAt (s : jsstring) (i : nat) : Prop := markAtB true s i.

(** Where the marks are when [hs] are the segments and the first one is
    at index [p]. *)
Fixpoint markOffsets (p : nat) (hs : list jsstring) : list nat :=
  match hs with
  | [] => []
  | h :: r => p :: markOffsets (p + 2 + length h) r
  end.

Definition sampleDiff : jsstring :=
  js "@@ -1,3 +1,4 @@" ++ [ch_nl] ++ js " ctxA" ++ [ch_nl] ++ js "+added1" ++ [ch_nl]
  ++ js " ctxB" ++ [ch_nl] ++ js "-removed1" ++ [ch_nl] ++ js " ctxC".

(** [p] is the position of a body line of [lines] that is not removed,
    for the counters [oldL] and [newL] at the first line. *)
Definition positionIn (lines : list jsstring) (oldL newL target : Z)
           (p : LinePosition) : Prop :=
  exists before line after,
    lines = before ++ line :: after /\
    startsWith line ch_minus = false /\
    newLine p = target /\
    newLine p = (newL + countNot ch_minus before)%Z /\
    (startsWith line ch_plus = true -> oldLine p = None) /\
    (startsWith line ch_plus = false ->
     oldLine p = Some (oldL + countNot ch_plus before)%Z).

(** Two hunks; line 12 is only in the second, and the walk over the first,
    which starts above it, leaves by the early exit. *)
Definition twoHunkDiff : jsstring :=
  js "@@ -20,2 +21,3 @@" ++ [ch_nl] ++ js " a" ++ [ch_nl] ++ js "+b" ++ [ch_nl]
  ++ js " c" ++ [ch_nl]
  ++ js "@@ -10,2 +11,3 @@" ++ [ch_nl] ++ js " k" ++ [ch_nl] ++ js "+l" ++ [ch_nl]
  ++ js " m".

(** A segment whose first line is not a hunk header, with the header
    pattern inside a context line of its body. *)
Definition strayHeaderDiff : jsstring :=
  js "@@ -a,b +c,d @@" ++ [ch_nl] ++ js " see -5,2 +7,2 @@ above" ++ [ch_nl]
  ++ js "+new".

(** The first line of a segment: what stands on the [@@] line after the
    mark. *)
Definition headerLine (hunk : jsstring) : jsstring :=
  nth 0 (splitOn ch_nl hunk) [].

(** The successful posts of a trace, by endpoint. *)
Fixpoint countPositionalOk (tr : trace) : Z :=
  match tr with
  | [] => 0%Z
  | Sent (PostDiscussionReq _ _) true :: rest => (1 + countPositionalOk rest)%Z
  | _ :: rest => countPositionalOk rest
  end.

Fixpoint countNotesOk (tr : trace) : Z :=
  match tr with
  | [] => 0%Z
  | Sent (PostNoteReq _) true :: rest => (1 + countNotesOk rest)%Z
  | _ :: rest => countNotesOk rest
  end.

(** The events of a fallback note for [comment], posted with outcome [ok]. *)
Definition fallbackEvents (comment : ReviewComment) (fileLineUrl : jsstring)
           (ok : bool) : trace :=
  [Sent (PostNoteReq (formatMessage comment fileLineUrl true)) ok;
   Logged (if ok then FallbackPosted (file comment) (line comment)
           else ErrorFallbackFailed)].

(** The events of a positional post for [comment], with outcome [ok]. *)
Definition positionalEvents (comment : ReviewComment) (fileLineUrl : jsstring)
           (pd : PositionData) (ok : bool) : trace :=
  [Sent (PostDiscussionReq (formatMessage comment fileLineUrl false) pd) ok;
   Logged (if ok then SuccessPositional (file comment) (line comment)
           else WarnPositionalFailed (file comment) (line comment))].

(** What one loop iteration adds to the trace [tr] and does to the
    counters: a positional post that goes through, one that is rejected
    and followed by a fallback note, or a fallback note alone. *)
Inductive commentStep (svc : service) (mrWebUrl : jsstring) (diffRefs : DiffRefs)
          (changes : list FileChange) (comment : ReviewComment) (tr : trace)
  : Z * Z -> Z * Z -> trace -> Prop :=
| StepPositional (pd : PositionData) (s f : Z) :
    positionFor diffRefs changes comment = Returned (Some pd) ->
    accepts svc tr (PostDiscussionReq
                      (formatMessage comment (fileLineUrlOf mrWebUrl diffRefs comment) false)
                      pd) = true ->
    commentStep svc mrWebUrl diffRefs changes comment tr (s, f) (s + 1, f)%Z
      (positionalEvents comment (fileLineUrlOf mrWebUrl diffRefs comment) pd true)
| StepRejected (pd : PositionData) (s f : Z) (ok : bool) :
    positionFor diffRefs changes comment = Returned (Some pd) ->
    accepts svc tr (PostDiscussionReq
                      (formatMessage comment (fileLineUrlOf mrWebUrl diffRefs comment) false)
                      pd) = false ->
    accepts svc
      (tr ++ positionalEvents comment (fileLineUrlOf mrWebUrl diffRefs comment) pd false)
      (PostNoteReq (formatMessage comment (fileLineUrlOf mrWebUrl diffRefs comment) true))
    = ok ->
    commentStep svc mrWebUrl diffRefs changes comment tr (s, f)
      (s, if ok then f + 1 else f)%Z
      (positionalEvents comment (fileLineUrlOf mrWebUrl diffRefs comment) pd false
       ++ fallbackEvents comment (fileLineUrlOf mrWebUrl diffRefs comment) ok)
| StepFallback (s f : Z) (ok : bool) :
    positionFor diffRefs changes comment = Returned None ->
    accepts svc tr
      (PostNoteReq (formatMessage comment (fileLineUrlOf mrWebUrl diffRefs comment) true))
    = ok ->
    commentStep svc mrWebUrl diffRefs changes comment tr (s, f)
      (s, if ok then f + 1 else f)%Z
      (fallbackEvents comment (fileLineUrlOf mrWebUrl diffRefs comment) ok).

(** Following the words of the specification: the entry whose new path is
    the comment's file, and only when there is none the entry whose old
    path is. *)
Definition findNewThenOld (changes : list FileChange) (comment : ReviewComment)
  : option FileChange :=
  match find (fun c => strEq (new_path c) (file comment)) changes with
  | Some c => Some c
  | None => find (fun c => strEq (old_path c) (file comment)) changes
  end.

(** [old.js] was renamed to [kept.js] and a new [old.js] was added. *)
Definition renamedEntry : FileChange :=
  mkChange (js "kept.js") (js "old.js") (js "@@ -1 +1 @@" ++ [ch_nl] ++ js " x").
Definition addedEntry : FileChange :=
  mkChange (js "old.js") (js "old.js") (js "@@ -0,0 +1 @@" ++ [ch_nl] ++ js "+y").
Definition renameChanges : list FileChange := [renamedEntry; addedEntry].
Definition renameComment : ReviewComment :=
  mkComment (js "old.js") 1 (js "note") None.

(** A run on [sampleDiff] against a service that rejects every positional
    post and accepts every note. *)
Definition sampleRefs : DiffRefs := mkRefs (js "base") (js "head") (js "start").
Definition sampleMr : MrInfo :=
  mkMr sampleRefs (js "https://gitlab.example/g/p/-/merge_requests/3").
Definition sampleChanges : list FileChange :=
  [mkChange (js "a.js") (js "a.js") sampleDiff].
Definition rejectPositional : service :=
  mkService (Some sampleMr) (Some sampleChanges)
    (fun _ r => match r with
                | PostDiscussionReq _ _ => false
                | _ => true
                end).
Definition sampleComment : ReviewComment := mkComment (js "a.js") 2 (js "d") None.
Definition otherComment : ReviewComment :=
  mkComment (js "z.js") 7 (js "e") (Some (js "fix")).

(** An event of the loop over [comments]: a positional post or a fallback
    note of one of them, or one of the loop's console lines. *)
Definition commentEvent (urlOf : ReviewComment -> jsstring)
           (comments : list ReviewComment) (e : event) : Prop :=
  match e with
  | Sent (PostNoteReq b) _ =>
      exists c, In c comments /\ b = formatMessage c (urlOf c) true
  | Sent (PostDiscussionReq b _) _ =>
      exists c, In c comments /\ b = formatMessage c (urlOf c) false
  | Sent _ _ => False
  | Logged l => l <> FatalApiError /\ l <> WarnSummaryFailed
  end.

(** Where line 2 of [sampleDiff] is anchored: an added line. *)
Definition samplePosition : PositionData :=
  mkPosition (js "base") (js "head") (js "start") (js "a.js") (js "a.js")
    (js "text") 2 None.


(** The diff of a deleted file whose last line ends with a newline. *)
Definition deletedFileDiff : jsstring :=
  js "@@ -1,3 +0,0 @@" ++ [ch_nl] ++ js "-a" ++ [ch_nl] ++ js "-b" ++ [ch_nl]
  ++ js "-c" ++ [ch_nl].

(** ** Vocabulary of the further statements *)

(** The note requests of a trace, whatever their outcome. *)
Fixpoint countNotesSent (tr : trace) : Z :=
  match tr with
  | [] => 0%Z
  | Sent (PostNoteReq _) _ :: rest => (1 + countNotesSent rest)%Z
  | _ :: rest => countNotesSent rest
  end.

(** The positional requests of a trace, whatever their outcome. *)
Fixpoint countPositionalSent (tr : trace) : Z :=
  match tr with
  | [] => 0%Z
  | Sent (PostDiscussionReq _ _) _ :: rest => (1 + countPositionalSent rest)%Z
  | _ :: rest => countPositionalSent rest
  end.

(** The console lines of a trace. *)
Fixpoint logLines (tr : trace) : list logLine :=
  match tr with
  | [] => []
  | Logged l :: rest => l :: logLines rest
  | _ :: rest => logLines rest
  end.

(** The loop over the comments as a chain of steps: from the trace [tr]
    and the counters before it to the counters after it and the events it
    adds. *)
Inductive loopRun (svc : service) (mrWebUrl : jsstring) (diffRefs : DiffRefs)
          (changes : list FileChange)
  : list ReviewComment -> trace -> Z * Z -> Z * Z -> trace -> Prop :=
| LoopDone (tr : trace) (counts : Z * Z) :
    loopRun svc mrWebUrl diffRefs changes [] tr counts counts []
| LoopStep (comment : ReviewComment) (rest : list ReviewComment) (tr : trace)
           (counts counts1 counts2 : Z * Z) (ext1 ext2 : trace) :
    commentStep svc mrWebUrl diffRefs changes comment tr counts counts1 ext1 ->
    loopRun svc mrWebUrl diffRefs changes rest (tr ++ ext1) counts1 counts2 ext2 ->
    loopRun svc mrWebUrl diffRefs changes (comment :: rest) tr counts counts2
      (ext1 ++ ext2).

(** The text ends with a line terminator. *)
Definition endsWithTerminator (s : jsstring) : bool :=
  match rev s with
  | c :: _ => isLineTerminator c
  | [] => false
  end.

(** The file header lines that precede the first hunk of a diff. *)
Definition fileHeader : jsstring :=
  js "--- a/src/a.js" ++ [ch_nl] ++ js "+++ b/src/a.js" ++ [ch_nl].

(** A service that accepts every request. *)
Definition acceptAll : service :=
  mkService (Some sampleMr) (Some sampleChanges) (fun _ _ => true).

(** A service whose fetch of the diffs fails. *)
Definition diffsUnavailable : service :=
  mkService (Some sampleMr) None (fun _ _ => true).

(** What every positional post of a run carries: the diff refs fetched at
    the start, the type [text], and the paths and the line of a comment
    matched against a changed file. *)
Definition anchored (mr : MrInfo) (changes : list FileChange)
           (comments : list ReviewComment) (pd : PositionData) : Prop :=
  pos_base_sha pd = base_sha (diff_refs mr) /\
  pos_head_sha pd = head_sha (diff_refs mr) /\
  pos_start_sha pd = start_sha (diff_refs mr) /\
  position_type pd = js "text" /\
  exists c fc,
    In c comments /\ In fc changes /\
    (new_path fc = file c \/ old_path fc = file c) /\
    pos_new_path pd = new_path fc /\ pos_old_path pd = old_path fc /\
    new_line pd = line c.

(** A comment on a file that is not among the changes. *)
Definition strayComment : ReviewComment :=
  mkComment (js "docs/readme.md") 4 (js "typo") None.

(** ** More of the JavaScript library: trim, join, encodeURIComponent *)

Local Open Scope N_scope.

(** ECMAScript WhiteSpace: tab, vertical tab, form feed, the byte order
    mark and the space separators of Unicode. *)
Definition isWhiteSpace (c : code_unit) : bool :=
  (c =? 9) || (c =? 11) || (c =? 12) || (c =? 32) || (c =? 160) || (c =? 5760)
  || ((8192 <=? c) && (c <=? 8202)) || (c =? 8239) || (c =? 8287)
  || (c =? 12288) || (c =? 65279).

(** What [trim] removes: white space and line terminators. *)
Definition isTrimmed (c : code_unit) : bool := isWhiteSpace c || isLineTerminator c.

Fixpoint trimStart (s : jsstring) : jsstring :=
  match s with
  | c :: t => if isTrimmed c then trimStart t else s
  | [] => []
  end.

Definition trimEnd (s : jsstring) : jsstring := rev (trimStart (rev s)).

(** [s.trim()] *)
Definition trim (s : jsstring) : jsstring := trimEnd (trimStart s).

(** [parts.join(sep)] *)
Fixpoint joinWith (sep : jsstring) (parts : list jsstring) : jsstring :=
  match parts with
  | [] => []
  | [p] => p
  | p :: rest => p ++ sep ++ joinWith sep rest
  end.

(** [s.endsWith(suffix)] *)
Definition endsWith (s suffix : jsstring) : bool := isPrefix (rev suffix) (rev s).

(** [s.replace(/\.git$/, '')]: the pattern has no flags, its [$] is the
    end of the text, so one closing [.git] is removed. *)
Definition dropDotGit (s : jsstring) : jsstring :=
  if endsWith s (js ".git") then firstn (length s - 4) s else s.

(** [s.replace(/^\/|\.git$/g, '')]: [^] is the start of the text and [$]
    its end; an opening slash and a closing [.git] are removed. *)
Definition dropSlashAndDotGit (s : jsstring) : jsstring :=
  dropDotGit (match s with
              | c :: t => if c =? 47 then t else s
              | [] => []
              end).

(** The characters [encodeURIComponent] leaves as they are: letters,
    digits and [-_.!~*'()]. *)
Definition isUnreserved (c : code_unit) : bool :=
  ((65 <=? c) && (c <=? 90)) || ((97 <=? c) && (c <=? 122))
  || ((48 <=? c) && (c <=? 57))
  || (c =? 45) || (c =? 95) || (c =? 46) || (c =? 33) || (c =? 126)
  || (c =? 42) || (c =? 39) || (c =? 40) || (c =? 41).

Definition hexDigit (d : N) : code_unit :=
  nth (N.to_nat d) (js "0123456789ABCDEF") 48.

(** One octet as [%XX]. *)
Definition percentOctet (b : N) : jsstring :=
  [37; hexDigit (b / 16); hexDigit (b mod 16)].

(** The UTF-8 encoding of a code point. *)
Definition utf8 (cp : N) : list N :=
  if cp <? 128 then [cp]
  else if cp <? 2048 then [192 + cp / 64; 128 + cp mod 64]
  else if cp <? 65536 then
    [224 + cp / 4096; 128 + (cp / 64) mod 64; 128 + cp mod 64]
  else
    [240 + cp / 262144; 128 + (cp / 4096) mod 64; 128 + (cp / 64) mod 64;
     128 + cp mod 64].

Definition isLeadSurrogate (c : code_unit) : bool := (55296 <=? c) && (c <=? 56319).
Definition isTrailSurrogate (c : code_unit) : bool := (56320 <=? c) && (c <=? 57343).

Definition percentEncoded (cp : N) : jsstring :=
  flat_map percentOctet (utf8 cp).

(** [encodeURIComponent(s)]; [None] is the URIError it throws on a
    surrogate that is not part of a pair. *)
Fixpoint encodeURIComponent (s : jsstring) : option jsstring :=
  match s with
  | [] => Some []
  | c :: t =>
      if isUnreserved c then option_map (cons c) (encodeURIComponent t)
      else if isTrailSurrogate c then None
      else if isLeadSurrogate c then
        match t with
        | d :: t' =>
            if isTrailSurrogate d
            then option_map
                   (app (percentEncoded ((c - 55296) * 1024 + (d - 56320) + 65536)))
                   (encodeURIComponent t')
            else None
        | [] => None
        end
      else option_map (app (percentEncoded c)) (encodeURIComponent t)
  end.

(** A character of an encoded text: unreserved, or the percent sign. *)
Definition isUriSafe (c : code_unit) : bool := isUnreserved c || (c =? 37).

(** ** The surroundings of the script *)

Local Open Scope Z_scope.

(** A merge request id: a number from the API or a string from the
    command line. *)
Inductive mrIid : Type :=
| IidNumber (n : Z)
| IidString (s : jsstring).

Definition truthyIid (i : mrIid) : bool :=
  match i with
  | IidNumber n => negb (n =? 0)
  | IidString s => truthy s
  end.

Definition iidToString (i : mrIid) : jsstring :=
  match i with
  | IidNumber n => numToString n
  | IidString s => s
  end.

(** An entry of the list of open merge requests. *)
Record MrSummary : Type := mkSummary {
  iid : mrIid;
  title : jsstring;
  target_branch : jsstring;
  updated_at : jsstring
}.

(** The data of a response, for the two endpoints that are read here. *)
Inductive payload : Type :=
| MrList (mrs : list MrSummary)                  (* an array of merge requests *)
| ChangesData (changes : option (list FileChange)).
                                                 (* an object, with or without [changes] *)

(** The object the methods belong to. *)
Record ReviewService : Type := mkReviewService {
  host : jsstring;
  token : jsstring;
  projectId : option jsstring      (* [None]: null or undefined *)
}.

(** What the script finds around it: the outcome of a shell command
    ([None]: it exits with an error), the path name of a URL ([None]: the
    text is no URL), the answer to a GET ([None]: the request fails), and
    the discussions API of a merge request of a project. *)
Record surroundings : Type := mkSurroundings {
  execSync : jsstring -> option jsstring;
  urlPathname : jsstring -> option jsstring;
  httpGet : jsstring -> option payload;
  discussionsOf : option jsstring -> mrIid -> service
}.

Inductive thrown : Type :=
| CommandFailed
| InvalidUrl
| UriError
| GetFailed
| FromSync (e : jsError).

(** The console lines of the methods around [postDiscussion]. *)
Inductive sysLine : Type :=
| ErrDetectProject
| ErrDetachedHead
| ErrGetBranch
| DebugCheckingMrs (branch url : jsstring)
| WarnSeveralMrs (count : nat) (branch : jsstring) (first : mrIid)
| WarnMrLine (mr : MrSummary)
| WarnNoOpenMr (branch : jsstring) (project : option jsstring)
| ErrFetchMrIid
| ErrFetchChanges
| ErrProjectRequired
| InfoBranch (branch : option jsstring)
| ErrNoMr
| InfoProjectAndMr (project : option jsstring) (mr : mrIid)
| InfoSyncing (count : nat).

Definition sysLevel (l : sysLine) : logLevel :=
  match l with
  | DebugCheckingMrs _ _ | InfoBranch _ | InfoProjectAndMr _ _ | InfoSyncing _ => ConsoleLog
  | WarnSeveralMrs _ _ _ | WarnMrLine _ | WarnNoOpenMr _ _ => ConsoleWarn
  | _ => ConsoleError
  end.

Inductive sysEvent : Type :=
| Ran (command : jsstring) (ok : bool)       (* a shell command *)
| Fetched (url : jsstring) (ok : bool)       (* a GET request *)
| Said (l : sysLine)
| Synced (tr : trace).                       (* a run of [postDiscussion] *)

(** Computations of the methods: effects on the list of events, and a
    throw that keeps them. *)
Definition Sys (A : Type) : Type := list sysEvent -> (A + thrown) * list sysEvent.

Definition retS {A} (a : A) : Sys A := fun ev => (inl a, ev).

Definition throwS {A} (e : thrown) : Sys A := fun ev => (inr e, ev).

Definition bindS {A B} (m : Sys A) (f : A -> Sys B) : Sys B :=
  fun ev =>
    match m ev with
    | (inl a, ev') => f a ev'
    | (inr e, ev') => (inr e, ev')
    end.

Notation "x <~~ m ;; k" := (bindS m (fun x => k))
  (at level 61, m at next level, right associativity).
Notation "m ;;;; k" := (bindS m (fun _ => k))
  (at level 61, right associativity).

Definition tryCatchS {A} (m : Sys A) (handler : thrown -> Sys A) : Sys A :=
  fun ev =>
    match m ev with
    | (inl a, ev') => (inl a, ev')
    | (inr e, ev') => handler e ev'
    end.

Definition say (l : sysLine) : Sys unit := fun ev => (inl tt, ev ++ [Said l]).

Definition orThrow {A} (o : option A) (e : thrown) : Sys A :=
  match o with
  | Some a => retS a
  | None => throwS e
  end.

Section Methods.
Variable env : surroundings.

(** [execSync(command).toString()] *)
Definition runCommand (command : jsstring) : Sys jsstring :=
  fun ev =>
    match execSync env command with
    | Some out => (inl out, ev ++ [Ran command true])
    | None => (inr CommandFailed, ev ++ [Ran command false])
    end.

(** [await axios.get(url, ...)] *)
Definition axiosGet (url : jsstring) : Sys payload :=
  fun ev =>
    match httpGet env url with
    | Some data => (inl data, ev ++ [Fetched url true])
    | None => (inr GetFailed, ev ++ [Fetched url false])
    end.

Definition truthyOpt (o : option jsstring) : bool :=
  match o with
  | Some s => truthy s
  | None => false
  end.

(** A value in a template literal: null prints as [null]. *)
Definition optToString (o : option jsstring) : jsstring :=
  match o with
  | Some s => s
  | None => js "null"
  end.

Definition getProjectId (this : ReviewService) : Sys (option jsstring) :=
  if truthyOpt (projectId this) then retS (projectId this)
  else
    tryCatchS
      (remote <~~ tryCatchS
                    (out <~~ runCommand (js "git remote get-url upstream") ;;
                     retS (trim out))
                    (fun _ =>
                       out <~~ runCommand (js "git remote get-url origin") ;;
                       retS (trim out)) ;;
       path <~~ (if isPrefix (js "git@") remote then
                   retS (dropDotGit
                           (joinWith (js ":") (skipn 1 (splitOn 58%N remote))))
                 else if isPrefix (js "http") remote then
                   pathname <~~ orThrow (urlPathname env remote) InvalidUrl ;;
                   retS (dropSlashAndDotGit pathname)
                 else retS []) ;;
       if truthy path then
         encoded <~~ orThrow (encodeURIComponent path) UriError ;;
         retS (Some encoded)
       else retS None)
      (fun e => say ErrDetectProject ;;;; retS None).

Definition getCurrentBranch : Sys (option jsstring) :=
  tryCatchS
    (out <~~ runCommand (js "git rev-parse --abbrev-ref HEAD") ;;
     let branch := trim out in
     if strEq branch (js "HEAD") then
       say ErrDetachedHead ;;;; retS None
     else retS (Some branch))
    (fun e => say ErrGetBranch ;;;; retS None).

(** [mrs.forEach(mr => console.warn(...))] *)
Fixpoint warnEach (mrs : list MrSummary) : Sys unit :=
  match mrs with
  | [] => retS tt
  | mr :: rest => say (WarnMrLine mr) ;;;; warnEach rest
  end.

Definition mrsUrl (this : ReviewService) (encodedBranch : jsstring) : jsstring :=
  host this ++ js "/api/v4/projects/" ++ optToString (projectId this)
  ++ js "/merge_requests?source_branch=" ++ encodedBranch
  ++ js "&state=opened&order_by=updated_at&sort=desc".

Definition getMrIidByBranch (this : ReviewService) (branchName : option jsstring)
  : Sys (option mrIid) :=
  match branchName with
  | None => retS None
  | Some branch =>
      if truthy branch then
        encodedBranch <~~ orThrow (encodeURIComponent branch) UriError ;;
        let url := mrsUrl this encodedBranch in
        tryCatchS
          (say (DebugCheckingMrs branch url) ;;;;
           data <~~ axiosGet url ;;
           match data with
           | MrList (first :: others) =>
               (match others with
                | [] => retS tt
                | _ =>
                    say (WarnSeveralMrs (length (first :: others)) branch (iid first)) ;;;;
                    warnEach (first :: others)
                end) ;;;;
               retS (Some (iid first))
           | _ =>
               say (WarnNoOpenMr branch (projectId this)) ;;;; retS None
           end)
          (fun e => say ErrFetchMrIid ;;;; retS None)
      else retS None
  end.

Definition changesUrl (this : ReviewService) (mr : mrIid) : jsstring :=
  host this ++ js "/api/v4/projects/" ++ optToString (projectId this)
  ++ js "/merge_requests/" ++ iidToString mr ++ js "/changes".

Definition getMrChanges (this : ReviewService) (mr : option mrIid)
  : Sys (list FileChange) :=
  match mr with
  | None => retS []
  | Some i =>
      if truthyIid i then
        tryCatchS
          (data <~~ axiosGet (changesUrl this i) ;;
           match data with
           | ChangesData (Some changes) => retS changes
           | _ => retS []
           end)
          (fun e => say ErrFetchChanges ;;;; retS [])
      else retS []
  end.

(** [await this.postDiscussion(mrIid, comments)], against the discussions
    of that merge request. *)
Definition runPostDiscussion (this : ReviewService) (mr : mrIid)
           (comments : list ReviewComment) : Sys unit :=
  fun ev =>
    let '(r, tr) := postDiscussion (discussionsOf env (projectId this) mr) comments [] in
    match r with
    | Returned _ => (inl tt, ev ++ [Synced tr])
    | Thrown e => (inr (FromSync e), ev ++ [Synced tr])
    end.

(** [autoSync]; the result is the object as the call leaves it. *)
Definition autoSync (this : ReviewService) (comments : list ReviewComment)
           (manualMrIid : option mrIid) : Sys ReviewService :=
  detected <~~ getProjectId this ;;
  if truthyOpt detected then
    let this := mkReviewService (host this) (token this) detected in
    found <~~ (if match manualMrIid with
                  | Some i => truthyIid i
                  | None => false
                  end
               then retS manualMrIid
               else
                 branch <~~ getCurrentBranch ;;
                 say (InfoBranch branch) ;;;;
                 getMrIidByBranch this branch) ;;
    match found with
    | Some mr =>
        if truthyIid mr then
          say (InfoProjectAndMr (projectId this) mr) ;;;;
          say (InfoSyncing (length comments)) ;;;;
          runPostDiscussion this mr comments ;;;;
          retS this
        else say ErrNoMr ;;;; retS this
    | None => say ErrNoMr ;;;; retS this
    end
  else say ErrProjectRequired ;;;; retS this.
End Methods.

(** Surroundings for the examples: [origin] is the only remote, an SSH
    address; one open merge request on the branch. *)
Definition sshRemote : jsstring := js "git@gitlab.example:group/sub/project.git".

Definition exampleSurroundings : surroundings :=
  mkSurroundings
    (fun command =>
       if strEq command (js "git remote get-url origin")
       then Some (sshRemote ++ [ch_nl])
       else if strEq command (js "git rev-parse --abbrev-ref HEAD")
       then Some (js "feature/x" ++ [ch_nl])
       else None)
    (fun _ => None)
    (fun _ => Some (MrList [mkSummary (IidNumber 7) (js "t") (js "main") (js "now")]))
    (fun _ _ => acceptAll).

Definition unconfigured : ReviewService :=
  mkReviewService (js "https://gitlab.example") (js "secret") None.

Definition configured : ReviewService :=
  mkReviewService (js "https://gitlab.example") (js "secret") (Some (js "42")).

(** Surroundings in which nothing works. *)
Definition nothingWorks : surroundings :=
  mkSurroundings (fun _ => None) (fun _ => None) (fun _ => None)
    (fun _ _ => diffsUnavailable).

(** An event that stays on the machine: a shell command or a console line. *)
Definition isLocalEvent (e : sysEvent) : bool :=
  match e with
  | Ran _ _ | Said _ => true
  | _ => false
  end.

(** The runs of [postDiscussion] among the events. *)
Fixpoint syncs (ev : list sysEvent) : list trace :=
  match ev with
  | [] => []
  | Synced tr :: rest => tr :: syncs rest
  | _ :: rest => syncs rest
  end.

(** The GET requests among the events. *)
Fixpoint fetches (ev : list sysEvent) : list (jsstring * bool) :=
  match ev with
  | [] => []
  | Fetched url ok :: rest => (url, ok) :: fetches rest
  | _ :: rest => fetches rest
  end.

(** The shell commands among the events. *)
Fixpoint commands (ev : list sysEvent) : list jsstring :=
  match ev with
  | [] => []
  | Ran command _ :: rest => command :: commands rest
  | _ :: rest => commands rest
  end.

(** What the lookup answers, from the data of the response. *)
Definition firstIid (response : option payload) : option mrIid :=
  match response with
  | Some (MrList (first :: _)) => Some (iid first)
  | _ => None
  end.

(** * Properties *)

(** ** The matcher on the two patterns *)

Local Open Scope N_scope.

Lemma matchAt_hunkMark (prev : option code_unit) (s : jsstring) :
  matchAt hunkMark (prev, s) =
  if atLineStart prev then
    match s with
    | a :: b :: rest =>
        if (a =? ch_at) && (b =? ch_at) then Some ((Some b, rest), []) else None
    | _ => None
    end
  else None.
Proof.
  unfold matchAt, hunkMark; simpl.
  destruct (atLineStart prev); [|reflexivity].
  destruct s as [|a [|b rest]]; simpl; try reflexivity.
  - destruct (a =? ch_at); reflexivity.
  - destruct (a =? ch_at); simpl; [|reflexivity].
    destruct (b =? ch_at); reflexivity.
Qed.

Lemma splitLoop_cut (fuel : nat) :
  forall (s : jsstring) (prev : option code_unit) (piece : jsstring),
    (length s < fuel)%nat ->
    splitLoop fuel hunkMark prev piece s =
    let '(h, hs) := cutMarks (atLineStart prev) s in (rev piece ++ h) :: hs.
Proof.
  induction fuel as [|fuel IH]; intros s prev piece Hlen; [inversion Hlen|].
  destruct s as [|c t].
  - simpl. rewrite app_nil_r. reflexivity.
  - assert (Hadv : splitLoop fuel hunkMark (Some c) (c :: piece) t =
                   let '(h, hs) := cutMarks (isLineTerminator c) t in
                   (rev piece ++ c :: h) :: hs).
    { rewrite IH by (simpl in Hlen; lia). simpl atLineStart.
      destruct (cutMarks (isLineTerminator c) t) as [h hs].
      simpl. rewrite <- app_assoc. reflexivity. }
    cbn [splitLoop]. rewrite matchAt_hunkMark. cbn [cutMarks].
    destruct (atLineStart prev); cbn [andb].
    + destruct t as [|b rest].
      * destruct (c =? ch_at); rewrite Hadv;
          destruct (cutMarks (isLineTerminator c) []); reflexivity.
      * destruct (c =? ch_at); cbn [andb].
        -- destruct (b =? ch_at) eqn:Eb.
           ++ cbn [snd fst length].
              replace (length rest =? S (S (length rest)))%nat with false
                by (symmetry; apply Nat.eqb_neq; lia).
              cbn [andb]. rewrite IH by (simpl in Hlen; lia).
              apply N.eqb_eq in Eb. subst b. simpl atLineStart.
              change (isLineTerminator ch_at) with false.
              destruct (cutMarks false rest) as [h hs].
              simpl. rewrite app_nil_r. reflexivity.
           ++ rewrite Hadv.
              destruct (cutMarks (isLineTerminator c) (b :: rest)); reflexivity.
        -- rewrite Hadv.
           destruct (cutMarks (isLineTerminator c) (b :: rest)); reflexivity.
    + rewrite Hadv. destruct (cutMarks (isLineTerminator c) t); reflexivity.
Qed.

(** [diffText.split(/^@@/m)] is the text before the first mark, then the
    segments. *)
Lemma jsSplit_hunkMark (s : jsstring) :
  s <> [] ->
  jsSplit s hunkMark = fst (cutMarks true s) :: snd (cutMarks true s).
Proof.
  intros Hs. destruct s as [|c t]; [congruence|].
  unfold jsSplit. rewrite splitLoop_cut by lia.
  simpl atLineStart. destruct (cutMarks true (c :: t)). reflexivity.
Qed.

(** *** Runs of digits *)

Lemma spanDigits_app (s : jsstring) :
  forall prev, s = fst (spanDigits prev s) ++ snd (snd (spanDigits prev s)).
Proof.
  induction s as [|x t IH]; intros prev; simpl; [reflexivity|].
  destruct (isDigit x); [|reflexivity].
  specialize (IH (Some x)). destruct (spanDigits (Some x) t) as [ds cur].
  simpl in *. congruence.
Qed.

Lemma spanDigits_digits (s : jsstring) :
  forall prev, forallb isDigit (fst (spanDigits prev s)) = true.
Proof.
  induction s as [|x t IH]; intros prev; simpl; [reflexivity|].
  destruct (isDigit x) eqn:Ex; [|reflexivity].
  specialize (IH (Some x)). destruct (spanDigits (Some x) t) as [ds cur].
  simpl in *. rewrite Ex, IH. reflexivity.
Qed.

Lemma spanDigits_stop (s : jsstring) :
  forall prev,
    spanDigits (fst (snd (spanDigits prev s))) (snd (snd (spanDigits prev s))) =
    ([], snd (spanDigits prev s)).
Proof.
  induction s as [|x t IH]; intros prev; simpl; [reflexivity|].
  destruct (isDigit x) eqn:Ex.
  - specialize (IH (Some x)). destruct (spanDigits (Some x) t) as [ds cur].
    simpl in *. destruct cur; exact IH.
  - simpl. rewrite Ex. reflexivity.
Qed.

Lemma spanDigits_nondigit (prev : option code_unit) (x : code_unit) (t : jsstring) :
  isDigit x = false -> spanDigits prev (x :: t) = ([], (prev, x :: t)).
Proof. intros Hx; simpl; rewrite Hx; reflexivity. Qed.

Lemma digit_not_char (x c : code_unit) :
  isDigit x = true -> isDigit c = false -> (x =? c) = false.
Proof.
  intros Hx Hc. destruct (x =? c) eqn:E; [|reflexivity].
  apply N.eqb_eq in E. congruence.
Qed.

(** *** The matcher's equations *)

Section Equations.
Context {A : Type} (k : cursor -> list jsstring -> option A).

Lemma rmatch_char c cur caps :
  rmatch (RChar c) cur caps k =
  match snd cur with
  | x :: t => if x =? c then k (Some x, t) caps else None
  | [] => None
  end.
Proof. reflexivity. Qed.

Lemma rmatch_seq r1 r2 cur caps :
  rmatch (RSeq r1 r2) cur caps k =
  rmatch r1 cur caps (fun cur' caps' => rmatch r2 cur' caps' k).
Proof. reflexivity. Qed.

Lemma rmatch_opt r cur caps :
  rmatch (ROpt r) cur caps k =
  match rmatch r cur caps k with
  | Some a => Some a
  | None => k cur caps
  end.
Proof. reflexivity. Qed.

Lemma rmatch_group r cur caps :
  rmatch (RGroup r) cur caps k =
  rmatch r cur caps
    (fun cur' caps' =>
       k cur' (caps' ++ [firstn (length (snd cur) - length (snd cur')) (snd cur)])).
Proof. reflexivity. Qed.

Lemma rmatch_expect c cur caps :
  rmatch (RChar c) cur caps k =
  match expect c cur with
  | Some cur' => k cur' caps
  | None => None
  end.
Proof.
  unfold expect; simpl. destruct (snd cur) as [|x t]; [reflexivity|].
  destruct (x =? c); reflexivity.
Qed.
End Equations.

(** *** One range field, [(\d+),?\d*], before a blank *)

Section Field.
Context {A : Type} (K2 : cursor -> list jsstring -> option A).
Hypothesis K2_caps : forall cur c1 c2, K2 cur c1 = None -> K2 cur c2 = None.

Lemma blankThen_caps cur c1 c2 :
  blankThen K2 cur c1 = None -> blankThen K2 cur c2 = None.
Proof.
  unfold blankThen; simpl. destruct (snd cur) as [|x t]; [reflexivity|].
  destruct (x =? ch_space); [apply K2_caps|reflexivity].
Qed.

Lemma blankThen_needs_space prev x t c :
  (x =? ch_space) = false -> blankThen K2 (prev, x :: t) c = None.
Proof. intros Hx. unfold blankThen; simpl. rewrite Hx. reflexivity. Qed.

(** Greedy [\d*] before a continuation [Kc] that cannot do better on a
    shorter run: the longest run is the one that counts. *)
Lemma starLoop_digits
      (Kc : cursor -> list jsstring -> option A)
      (g : cursor -> list jsstring -> list jsstring)
      (HK : forall prev s c1 c2,
          Kc (snd (spanDigits prev s)) c1 = None -> Kc (prev, s) c2 = None)
      (fuel : nat) :
  forall s prev caps,
    (length s < fuel)%nat ->
    starLoop (rmatch RDigit) (fun cur p => Kc cur (g cur p)) fuel (prev, s) caps =
    Kc (snd (spanDigits prev s)) (g (snd (spanDigits prev s)) caps).
Proof.
  induction fuel as [|fuel IH]; intros s prev caps Hlen; [inversion Hlen|].
  destruct s as [|x t]; [reflexivity|].
  cbn [starLoop rmatch snd spanDigits].
  destruct (isDigit x) eqn:Ex.
  - replace (length t <? length (x :: t))%nat with true
      by (symmetry; apply Nat.ltb_lt; simpl; lia).
    rewrite IH by (simpl in Hlen; lia).
    pose proof (HK prev (x :: t)) as HK'. cbn [spanDigits] in HK'. rewrite Ex in HK'.
    destruct (spanDigits (Some x) t) as [ds cur]. cbn [snd] in *.
    destruct (Kc cur (g cur caps)) eqn:E; [reflexivity|].
    apply (HK' _ _ E).
  - reflexivity.
Qed.

Lemma blankThen_HK prev s c1 c2 :
  blankThen K2 (snd (spanDigits prev s)) c1 = None -> blankThen K2 (prev, s) c2 = None.
Proof.
  destruct s as [|x t]; [apply blankThen_caps|].
  cbn [spanDigits]. destruct (isDigit x) eqn:Ex.
  - intros _. apply blankThen_needs_space. apply digit_not_char; [exact Ex|reflexivity].
  - apply blankThen_caps.
Qed.

(** [\d*] then the blank. *)
Lemma star_then_space (cur : cursor) (caps : list jsstring) :
  rmatch (RStar RDigit) cur caps (blankThen K2) =
  blankThen K2 (snd (spanDigits (fst cur) (snd cur))) caps.
Proof.
  destruct cur as [prev s]. cbn [rmatch fst snd].
  apply (starLoop_digits (blankThen K2) (fun _ p => p) blankThen_HK). lia.
Qed.

Lemma afterRun_closed (cur : cursor) (c : list jsstring) :
  afterRun K2 cur c =
  match expect ch_comma cur with
  | Some cur' =>
      match (blankThen K2) (snd (spanDigits (fst cur') (snd cur'))) c with
      | Some a => Some a
      | None => blankThen K2 (snd (spanDigits (fst cur) (snd cur))) c
      end
  | None => blankThen K2 (snd (spanDigits (fst cur) (snd cur))) c
  end.
Proof.
  unfold afterRun. rewrite rmatch_opt, rmatch_expect.
  destruct (expect ch_comma cur) as [cur'|].
  - rewrite !star_then_space. reflexivity.
  - rewrite star_then_space. reflexivity.
Qed.
Lemma afterRun_HK prev s c1 c2 :
  afterRun K2 (snd (spanDigits prev s)) c1 = None -> afterRun K2 (prev, s) c2 = None.
Proof.
  rewrite !afterRun_closed. rewrite spanDigits_stop. cbn [snd fst].
  destruct s as [|x t].
  - cbn [spanDigits snd expect]. apply blankThen_caps.
  - cbn [spanDigits]. destruct (isDigit x) eqn:Ex.
    + intros H.
      assert (Hm : blankThen K2
                     (snd (let '(ds, cur) := spanDigits (Some x) t in (x :: ds, cur)))
                     c1 = None).
      { destruct (expect ch_comma _); [|exact H].
        destruct (blankThen K2 _ c1); [discriminate|exact H]. }
      unfold expect at 1. cbn [snd fst].
      rewrite (digit_not_char x ch_comma Ex eq_refl). apply (blankThen_caps _ _ _ Hm).
    + cbn [snd fst].
      match goal with
      | |- context [expect ?c ?m] => destruct (expect c m) as [cur'|]
      end.
      * destruct (blankThen K2 (snd (spanDigits (fst cur') (snd cur'))) c1) eqn:E1;
          [intros H; discriminate H|].
        intros H. rewrite (blankThen_caps _ _ c2 E1). apply (blankThen_caps _ _ _ H).
      * apply blankThen_caps.
Qed.

Lemma afterRun_at_stop (m : cursor) (c : list jsstring) :
  spanDigits (fst m) (snd m) = ([], m) ->
  afterRun K2 m c =
  blankThen K2 (snd (spanDigits (fst (skipComma m)) (snd (skipComma m)))) c.
Proof.
  intros Hm. rewrite afterRun_closed, Hm. cbn [snd].
  unfold expect, skipComma. destruct m as [p s]. cbn [snd fst] in *.
  destruct s as [|x t]; [reflexivity|].
  destruct (x =? ch_comma) eqn:Ex; cbn [snd fst].
  - destruct (blankThen K2 (snd (spanDigits (Some x) t)) c); [reflexivity|].
    apply blankThen_needs_space. apply N.eqb_eq in Ex. subst x. reflexivity.
  - rewrite Hm. reflexivity.
Qed.

Lemma firstn_run (x : code_unit) (ds r : jsstring) :
  firstn (length (x :: ds ++ r) - length r) (x :: ds ++ r) = x :: ds.
Proof.
  replace (length (x :: ds ++ r) - length r)%nat with (length (x :: ds))
    by (cbn [length]; rewrite length_app; lia).
  change (x :: ds ++ r) with ((x :: ds) ++ r).
  rewrite firstn_app, firstn_all, Nat.sub_diag. cbn [firstn]. apply app_nil_r.
Qed.

Lemma field_closed (cur : cursor) (caps : list jsstring) :
  rmatch (RGroup (RPlus RDigit)) cur caps (afterRun K2) =
  match rangeField cur with
  | Some (ds, cur') => blankThen K2 cur' (caps ++ [ds])
  | None => None
  end.
Proof.
  rewrite rmatch_group. unfold RPlus. rewrite rmatch_seq.
  unfold rangeField. destruct cur as [prev s]. cbn [fst snd].
  destruct s as [|x t]; [reflexivity|].
  cbn [rmatch snd spanDigits]. destruct (isDigit x) eqn:Ex; [|reflexivity].
  rewrite (starLoop_digits (afterRun K2)
             (fun cur' p => p ++ [firstn (length (x :: t) - length (snd cur')) (x :: t)])
             afterRun_HK) by lia.
  pose proof (spanDigits_app t (Some x)) as Happ.
  pose proof (spanDigits_stop t (Some x)) as Hstop.
  destruct (spanDigits (Some x) t) as [ds m]. cbn [fst snd] in *.
  rewrite Happ at 1 2. rewrite firstn_run.
  apply afterRun_at_stop. exact Hstop.
Qed.
End Field.

(** A range field inside a sequence. *)
Lemma field_seq {A : Type} (rest : regex) (k : cursor -> list jsstring -> option A)
      (Hk : forall cur c1 c2, rmatch rest cur c1 k = None -> rmatch rest cur c2 k = None)
      (cur : cursor) (caps : list jsstring) :
  rmatch (RSeq (RGroup (RPlus RDigit))
            (RSeq (ROpt (RChar ch_comma))
               (RSeq (RStar RDigit) (RSeq (RChar ch_space) rest)))) cur caps k =
  match rangeField cur with
  | Some (ds, cur') =>
      match expect ch_space cur' with
      | Some cur'' => rmatch rest cur'' (caps ++ [ds]) k
      | None => None
      end
  | None => None
  end.
Proof.
  pose proof (field_closed (fun c p => rmatch rest c p k) Hk cur caps) as H.
  cbv beta in H. rewrite rmatch_seq.
  etransitivity; [exact H|].
  destruct (rangeField cur) as [[ds cur']|]; [|reflexivity].
  apply rmatch_expect.
Qed.

(** *** The header pattern at one cursor *)

Lemma tail_caps (cur : cursor) (c1 c2 : list jsstring) :
  rmatch (RSeq (RChar ch_at) (RChar ch_at)) cur c1 finalK = None ->
  rmatch (RSeq (RChar ch_at) (RChar ch_at)) cur c2 finalK = None.
Proof.
  rewrite !rmatch_seq, !rmatch_expect.
  destruct (expect ch_at cur) as [c|]; [|reflexivity].
  rewrite !rmatch_expect. destruct (expect ch_at c); [discriminate|reflexivity].
Qed.

Lemma secondHalf_closed (cur : cursor) (caps : list jsstring) :
  rmatch secondHalf cur caps finalK =
  optBind (expect ch_plus cur) (fun c5 =>
  optBind (rangeField c5) (fun '(g2, c6) =>
  optBind (expect ch_space c6) (fun c7 =>
  optBind (expect ch_at c7) (fun c8 =>
  optBind (expect ch_at c8) (fun c9 =>
  Some (c9, caps ++ [g2])))))).
Proof.
  unfold secondHalf. rewrite rmatch_seq, rmatch_expect.
  destruct (expect ch_plus cur) as [c5|]; [|reflexivity]. cbn [optBind].
  rewrite (field_seq _ finalK tail_caps).
  destruct (rangeField c5) as [[g2 c6]|]; [|reflexivity]. cbn [optBind].
  destruct (expect ch_space c6) as [c7|]; [|reflexivity]. cbn [optBind].
  rewrite rmatch_seq, rmatch_expect.
  destruct (expect ch_at c7) as [c8|]; [|reflexivity]. cbn [optBind].
  rewrite rmatch_expect.
  destruct (expect ch_at c8) as [c9|]; reflexivity.
Qed.

Lemma secondHalf_caps (cur : cursor) (c1 c2 : list jsstring) :
  rmatch secondHalf cur c1 finalK = None ->
  rmatch secondHalf cur c2 finalK = None.
Proof.
  rewrite !secondHalf_closed.
  destruct (expect ch_plus cur) as [c5|]; [|reflexivity]. cbn [optBind].
  destruct (rangeField c5) as [[g2 c6]|]; [|reflexivity]. cbn [optBind].
  destruct (expect ch_space c6) as [c7|]; [|reflexivity]. cbn [optBind].
  destruct (expect ch_at c7) as [c8|]; [|reflexivity]. cbn [optBind].
  destruct (expect ch_at c8) as [c9|]; [discriminate|reflexivity].
Qed.

(** One attempt of the header pattern is the direct parse. *)
Lemma matchAt_header (cur : cursor) :
  matchAt headerPattern cur =
  match headerAt cur with
  | Some (g1, g2, cur') => Some (cur', [g1; g2])
  | None => None
  end.
Proof.
  unfold matchAt, headerAt.
  change headerPattern with
    (RSeq (RChar ch_space)
       (RSeq (RChar ch_minus)
          (RSeq (RGroup (RPlus RDigit))
             (RSeq (ROpt (RChar ch_comma))
                (RSeq (RStar RDigit) (RSeq (RChar ch_space) secondHalf)))))).
  change (fun (cur' : cursor) (caps : list jsstring) => Some (cur', caps)) with finalK.
  rewrite rmatch_seq, rmatch_expect.
  destruct (expect ch_space cur) as [c1|]; [|reflexivity]. cbn [optBind].
  rewrite rmatch_seq, rmatch_expect.
  destruct (expect ch_minus c1) as [c2|]; [|reflexivity]. cbn [optBind].
  rewrite (field_seq _ finalK secondHalf_caps).
  destruct (rangeField c2) as [[g1 c3]|]; [|reflexivity]. cbn [optBind].
  destruct (expect ch_space c3) as [c4|]; [|reflexivity]. cbn [optBind].
  rewrite secondHalf_closed.
  destruct (expect ch_plus c4) as [c5|]; [|reflexivity]. cbn [optBind].
  destruct (rangeField c5) as [[g2 c6]|]; [|reflexivity]. cbn [optBind].
  destruct (expect ch_space c6) as [c7|]; [|reflexivity]. cbn [optBind].
  destruct (expect ch_at c7) as [c8|]; [|reflexivity]. cbn [optBind].
  destruct (expect ch_at c8) as [c9|]; reflexivity.
Qed.

Lemma expect_inv c cur cur' :
  expect c cur = Some cur' -> snd cur = c :: snd cur'.
Proof.
  unfold expect. destruct (snd cur) as [|x t]; [discriminate|].
  destruct (x =? c) eqn:E; [|discriminate].
  intros H; inversion H; subst. apply N.eqb_eq in E. subst. reflexivity.
Qed.

Lemma expect_cons c prev t : expect c (prev, c :: t) = Some (Some c, t).
Proof. unfold expect; simpl. rewrite N.eqb_refl. reflexivity. Qed.

Lemma spanDigits_run (d r : jsstring) :
  digitRun d ->
  (forall x t, r = x :: t -> isDigit x = false) ->
  forall prev, exists p, spanDigits prev (d ++ r) = (d, (p, r)).
Proof.
  intros Hd Hr. induction d as [|x d IH]; intros prev.
  - exists prev. simpl. destruct r as [|x t]; [reflexivity|].
    simpl. rewrite (Hr x t eq_refl). reflexivity.
  - unfold digitRun in Hd. simpl in Hd. apply andb_prop in Hd. destruct Hd as [Hx Hd].
    destruct (IH Hd (Some x)) as [p Hp]. exists p.
    simpl. rewrite Hx, Hp. reflexivity.
Qed.

Lemma skipComma_cases (cur : cursor) :
  (exists t, snd cur = ch_comma :: t /\ skipComma cur = (Some ch_comma, t)) \/
  (skipComma cur = cur /\ forall t, snd cur <> ch_comma :: t).
Proof.
  unfold skipComma. destruct (snd cur) as [|y t] eqn:E.
  - right. split; [reflexivity|discriminate].
  - destruct (y =? ch_comma) eqn:Ey.
    + apply N.eqb_eq in Ey. subst y. left. exists t. split; reflexivity.
    + right. split; [reflexivity|].
      intros t' H. inversion H; subst. rewrite N.eqb_refl in Ey. discriminate.
Qed.

Lemma rangeField_sound (cur : cursor) (ds : jsstring) (cur' : cursor) :
  rangeField cur = Some (ds, cur') ->
  exists m, optCount m /\ snd cur = ds ++ m ++ snd cur' /\ ds <> [] /\ digitRun ds.
Proof.
  unfold rangeField.
  pose proof (spanDigits_app (snd cur) (fst cur)) as Happ.
  pose proof (spanDigits_digits (snd cur) (fst cur)) as Hdig.
  pose proof (spanDigits_stop (snd cur) (fst cur)) as Hstop.
  destruct (spanDigits (fst cur) (snd cur)) as [run cur1]. cbn [fst snd] in *.
  destruct run as [|x run]; [discriminate|].
  intros H; inversion H; subst ds cur'; clear H.
  destruct (skipComma_cases cur1) as [[t [E1 Esk]]|[Esk _]]; rewrite Esk.
  - cbn [fst snd].
    pose proof (spanDigits_app t (Some ch_comma)) as Happ2.
    pose proof (spanDigits_digits t (Some ch_comma)) as Hdig2.
    destruct (spanDigits (Some ch_comma) t) as [e cur2]. cbn [fst snd] in *.
    exists (ch_comma :: e).
    repeat split; [constructor; exact Hdig2| |discriminate|exact Hdig].
    rewrite Happ, E1, Happ2. reflexivity.
  - rewrite Hstop. cbn [snd]. exists [].
    repeat split; [constructor| |discriminate|exact Hdig].
    rewrite Happ. reflexivity.
Qed.

Lemma rangeField_complete (prev : option code_unit) (N m r : jsstring) :
  N <> [] -> digitRun N -> optCount m ->
  forall t, r = ch_space :: t ->
  exists p, rangeField (prev, N ++ m ++ r) = Some (N, (p, r)).
Proof.
  intros HN Hd Hm t Hr. unfold rangeField. cbn [fst snd].
  assert (Hnd : forall x t', r = x :: t' -> isDigit x = false).
  { intros x t' E. rewrite Hr in E. inversion E; subst. reflexivity. }
  destruct Hm as [|e He].
  - destruct (spanDigits_run N r Hd Hnd prev) as [p Hp].
    cbn [app]. rewrite Hp. destruct N as [|x N]; [congruence|].
    exists p. unfold skipComma. cbn [snd]. rewrite Hr.
    change (ch_space =? ch_comma) with false. cbn [fst snd].
    reflexivity.
  - assert (Hnd' : forall x t', (ch_comma :: e) ++ r = x :: t' -> isDigit x = false).
    { intros x t' E. inversion E; subst. reflexivity. }
    destruct (spanDigits_run N ((ch_comma :: e) ++ r) Hd Hnd' prev) as [p Hp].
    rewrite Hp. destruct N as [|x N]; [congruence|].
    unfold skipComma. cbn [snd app]. rewrite N.eqb_refl. cbn [fst snd].
    destruct (spanDigits_run e r He Hnd (Some ch_comma)) as [p' Hp'].
    rewrite Hp'. exists p'. reflexivity.
Qed.

Lemma headerAt_sound (cur : cursor) (g1 g2 : jsstring) (cur' : cursor) :
  headerAt cur = Some (g1, g2, cur') ->
  exists occ, isHeader g1 g2 occ /\ snd cur = occ ++ snd cur'.
Proof.
  unfold headerAt.
  destruct (expect ch_space cur) as [c1|] eqn:E1; [|discriminate]. cbn [optBind].
  destruct (expect ch_minus c1) as [c2|] eqn:E2; [|discriminate]. cbn [optBind].
  destruct (rangeField c2) as [[n c3]|] eqn:E3; [|discriminate]. cbn [optBind].
  destruct (expect ch_space c3) as [c4|] eqn:E4; [|discriminate]. cbn [optBind].
  destruct (expect ch_plus c4) as [c5|] eqn:E5; [|discriminate]. cbn [optBind].
  destruct (rangeField c5) as [[c c6]|] eqn:E6; [|discriminate]. cbn [optBind].
  destruct (expect ch_space c6) as [c7|] eqn:E7; [|discriminate]. cbn [optBind].
  destruct (expect ch_at c7) as [c8|] eqn:E8; [|discriminate]. cbn [optBind].
  destruct (expect ch_at c8) as [c9|] eqn:E9; [|discriminate]. cbn [optBind].
  intros H; inversion H; subst g1 g2 cur'; clear H.
  apply expect_inv in E1, E2, E4, E5, E7, E8, E9.
  destruct (rangeField_sound _ _ _ E3) as [m [Hm [S3 [Hn Hdn]]]].
  destruct (rangeField_sound _ _ _ E6) as [d [Hd [S6 [Hc Hdc]]]].
  eexists. split; [apply (IsHeader n c m d); assumption|].
  rewrite E1, E2, S3, E4, E5, S6, E7, E8, E9.
  cbn [app]. rewrite <- !app_assoc. cbn [app]. rewrite <- !app_assoc. reflexivity.
Qed.

Lemma headerAt_complete (prev : option code_unit) (N C occ rest : jsstring) :
  isHeader N C occ ->
  headerAt (prev, occ ++ rest) = Some (N, C, (Some ch_at, rest)).
Proof.
  intros [m d HN HdN Hm HC HdC Hd]. unfold headerAt.
  cbn [app]. rewrite expect_cons. cbn [optBind]. rewrite expect_cons. cbn [optBind].
  repeat (rewrite <- ?app_assoc; cbn [app]).
  destruct (rangeField_complete (Some ch_minus) N m
              (ch_space :: ch_plus :: C ++ d ++ ch_space :: ch_at :: ch_at :: rest)
              HN HdN Hm _ eq_refl) as [p Hp].
  rewrite Hp. cbn [optBind]. rewrite expect_cons. cbn [optBind].
  rewrite expect_cons. cbn [optBind].
  destruct (rangeField_complete (Some ch_plus) C d
              (ch_space :: ch_at :: ch_at :: rest) HC HdC Hd _ eq_refl) as [p' Hp'].
  rewrite Hp'. cbn [optBind]. rewrite !expect_cons. reflexivity.
Qed.

(** *** [hunk.match(headerPattern)]: the first occurrence in the text *)

Lemma firstn_occ (occ after : jsstring) :
  firstn (length (occ ++ after) - length after) (occ ++ after) = occ.
Proof.
  rewrite length_app. replace (length occ + length after - length after)%nat
    with (length occ) by lia.
  rewrite firstn_app, firstn_all, Nat.sub_diag. cbn [firstn]. apply app_nil_r.
Qed.

Lemma execFrom_unfold (r : regex) (prev : option code_unit) (s : jsstring) :
  execFrom r prev s =
  match matchAt r (prev, s) with
  | Some (cur', caps) => Some (firstn (length s - length (snd cur')) s :: caps)
  | None =>
      match s with
      | [] => None
      | c :: t => execFrom r (Some c) t
      end
  end.
Proof. destruct s; reflexivity. Qed.



Lemma execFrom_header_inv (s : jsstring) :
  forall prev arr,
    execFrom headerPattern prev s = Some arr ->
    exists before N C occ after,
      occursAfter s before N C occ after /\ noneEarlier s before /\
      arr = [occ; N; C].
Proof.
  assert (Hhere : forall prev s g1 g2 cur',
             headerAt (prev, s) = Some (g1, g2, cur') ->
             exists occ, occursAfter s [] g1 g2 occ (snd cur') /\
                         firstn (length s - length (snd cur')) s = occ).
  { intros prev s0 g1 g2 cur' E. apply headerAt_sound in E.
    destruct E as [o [Ho Es]]. cbn [snd] in Es. exists o.
    split; [split; [exact Es|exact Ho]|]. rewrite Es. apply firstn_occ. }
  assert (Hfound : forall prev s g1 g2 cur' arr,
             headerAt (prev, s) = Some (g1, g2, cur') ->
             Some (firstn (length s - length (snd cur')) s :: [g1; g2]) = Some arr ->
             exists before N C occ after,
               occursAfter s before N C occ after /\ noneEarlier s before /\
               arr = [occ; N; C]).
  { intros prev s0 g1 g2 cur' arr E H. inversion H; subst arr; clear H.
    destruct (Hhere _ _ _ _ _ E) as [occ [Hocc Hfn]].
    exists [], g1, g2, occ, (snd cur'). rewrite Hfn.
    split; [exact Hocc|]. split; [|reflexivity].
    intros b N C o a _. simpl. lia. }
  induction s as [|c t IH]; intros prev arr; rewrite execFrom_unfold, matchAt_header;
    case_headerAt E; try discriminate; try (apply (Hfound _ _ _ _ _ _ E)).
  intros H. destruct (IH _ _ H) as [b [N [C [o [a [[Heq Ho] [Hmin Harr]]]]]]].
  exists (c :: b), N, C, o, a. split; [split; [|exact Ho]|split; [|exact Harr]].
  - cbn [app]. rewrite Heq. reflexivity.
  - intros b' N' C' o' a' [Heq' Ho'].
    destruct b' as [|c' b'].
    + exfalso. cbn [app] in Heq'.
      pose proof (headerAt_complete prev N' C' o' a' Ho') as Hc.
      rewrite <- Heq' in Hc.
      assert (Hcontra : @None (jsstring * jsstring * cursor) = Some (N', C', (Some ch_at, a')))
        by (rewrite <- E; exact Hc).
      discriminate Hcontra.
    + cbn [app] in Heq'. inversion Heq'; subst c'.
      assert (Hle : (length b <= length b')%nat).
      { apply (Hmin b' N' C' o' a'). split; assumption. }
      simpl. lia.
Qed.

(** ** findLineInDiff *)

Local Open Scope Z_scope.

Lemma hunks_cut (diffText : jsstring) :
  hunks diffText = snd (cutMarks true diffText).
Proof.
  unfold hunks. destruct diffText as [|c t]; [reflexivity|].
  rewrite jsSplit_hunkMark by discriminate. reflexivity.
Qed.

Lemma findLineInDiff_hunks (diffText : jsstring) (target : Z) :
  findLineInDiff diffText target = scanHunks (hunks diffText) target.
Proof. destruct diffText; reflexivity. Qed.

(** What one segment contributes, by the result of the header search. *)
Lemma scanHunk_cases (hunk : jsstring) (target : Z) :
  (jsMatch hunk headerPattern = None /\ scanHunk hunk target = Returned None) \/
  (exists arr,
      jsMatch hunk headerPattern = Some arr /\
      scanHunk hunk target =
      Returned (Some (walkLines (bodyLines hunk) (parseInt (nth 1 arr []))
                        (parseInt (nth 2 arr [])) target))).
Proof.
  unfold scanHunk. destruct (jsMatch hunk headerPattern) as [arr|].
  - right. exists arr. split; reflexivity.
  - left. split; reflexivity.
Qed.

Lemma scanHunks_cons (hunk : jsstring) (rest : list jsstring) (target : Z) :
  scanHunks (hunk :: rest) target =
  match scanHunk hunk target with
  | Returned (Some (Matched p)) => Returned (Some p)
  | Returned _ => scanHunks rest target
  | Thrown e => Thrown e
  end.
Proof.
  cbn [scanHunks]. unfold bind.
  destruct (scanHunk hunk target) as [[[p| |]|]|e]; reflexivity.
Qed.

(** The walk over the body lines. *)
Lemma positionIn_here (l : jsstring) (rest : list jsstring) (oldL newL : Z)
      (o : option Z) :
  startsWith l ch_minus = false ->
  (startsWith l ch_plus = true -> o = None) ->
  (startsWith l ch_plus = false -> o = Some oldL) ->
  positionIn (l :: rest) oldL newL newL (mkPos o newL).
Proof.
  intros Hm Hp Hc. exists [], l, rest. cbn [countNot newLine oldLine app].
  split; [reflexivity|]. split; [exact Hm|]. split; [reflexivity|].
  split; [lia|]. split; [exact Hp|].
  intros E. rewrite (Hc E). f_equal. lia.
Qed.

Lemma positionIn_later (l : jsstring) (rest : list jsstring)
      (oldL newL target : Z) (p : LinePosition) :
  positionIn rest (oldL + (if startsWith l ch_plus then 0 else 1))
    (newL + (if startsWith l ch_minus then 0 else 1)) target p ->
  positionIn (l :: rest) oldL newL target p.
Proof.
  intros [b [ln [a [Hl [Hm [Ht [Hn [Hp Hc]]]]]]]].
  exists (l :: b), ln, a. cbn [countNot app].
  split; [rewrite Hl; reflexivity|]. split; [exact Hm|]. split; [exact Ht|].
  split; [rewrite Hn; lia|]. split; [exact Hp|].
  intros E. rewrite (Hc E). f_equal. lia.
Qed.

Lemma minus_not_plus (l : jsstring) :
  startsWith l ch_minus = true -> startsWith l ch_plus = false.
Proof.
  destruct l as [|x l']; [discriminate|]. simpl. intros E.
  apply N.eqb_eq in E. subst x. reflexivity.
Qed.

Lemma walkLines_matched (lines : list jsstring) :
  forall oldL newL target p,
    walkLines lines oldL newL target = Matched p ->
    positionIn lines oldL newL target p.
Proof.
  induction lines as [|l rest IH]; intros oldL newL target p H; [discriminate|].
  cbn [walkLines] in H.
  destruct (startsWith l ch_minus) eqn:Em.
  - destruct (newL >? target); [discriminate|].
    apply positionIn_later. rewrite Em, (minus_not_plus l Em).
    rewrite Z.add_0_r. apply IH. exact H.
  - destruct (startsWith l ch_plus) eqn:Ep.
    + destruct (newL =? target) eqn:Et.
      * inversion H; subst p; clear H. apply Z.eqb_eq in Et. subst target.
        apply positionIn_here; [exact Em|reflexivity|congruence].
      * destruct (newL + 1 >? target); [discriminate|].
        apply positionIn_later. rewrite Em, Ep.
        rewrite Z.add_0_r. apply IH. exact H.
    + destruct (newL =? target) eqn:Et.
      * inversion H; subst p; clear H. apply Z.eqb_eq in Et. subst target.
        apply positionIn_here; [exact Em|congruence|reflexivity].
      * destruct (newL + 1 >? target); [discriminate|].
        apply positionIn_later. rewrite Em, Ep. apply IH. exact H.
Qed.

(** A match comes from some segment's walk. *)
Lemma scanHunks_matched (hs : list jsstring) (target : Z) (p : LinePosition) :
  scanHunks hs target = Returned (Some p) ->
  exists hunk arr,
    In hunk hs /\ jsMatch hunk headerPattern = Some arr /\
    walkLines (bodyLines hunk) (parseInt (nth 1 arr [])) (parseInt (nth 2 arr []))
      target = Matched p.
Proof.
  induction hs as [|h rest IH]; [discriminate|].
  rewrite scanHunks_cons.
  destruct (scanHunk_cases h target) as [[Hn Hs]|[arr [Hm Hs]]]; rewrite Hs.
  - intros H. destruct (IH H) as [hunk [arr [Hin Hrest]]].
    exists hunk, arr. split; [right; exact Hin|exact Hrest].
  - destruct (walkLines (bodyLines h) _ _ target) as [q| |] eqn:Ew.
    + intros H; inversion H; subst q. exists h, arr.
      split; [left; reflexivity|]. split; assumption.
    + intros H. destruct (IH H) as [hunk [arr' [Hin Hrest]]].
      exists hunk, arr'. split; [right; exact Hin|exact Hrest].
    + intros H. destruct (IH H) as [hunk [arr' [Hin Hrest]]].
      exists hunk, arr'. split; [right; exact Hin|exact Hrest].
Qed.



(** C2.  On the single hunk [@@ -1,3 +1,4 @@] with body lines [ ctxA],
    [+added1], [ ctxB], [-removed1], [ ctxC], targets 1, 2, 3 and 4 give
    (1,1), (null,2), (2,3) and (4,4), and target 99 is not found. *)
Theorem C2_sample_hunk :
  findLineInDiff sampleDiff 1 = Returned (Some (mkPos (Some 1) 1)) /\
  findLineInDiff sampleDiff 2 = Returned (Some (mkPos None 2)) /\
  findLineInDiff sampleDiff 3 = Returned (Some (mkPos (Some 2) 3)) /\
  findLineInDiff sampleDiff 4 = Returned (Some (mkPos (Some 4) 4)) /\
  findLineInDiff sampleDiff 99 = Returned None.
Proof. repeat split; vm_compute; reflexivity. Qed.

(** The same with the newline that ends the last line of a diff. *)
Lemma sample_hunk_with_final_newline :
  let text := sampleDiff ++ [ch_nl] in
  findLineInDiff text 1 = Returned (Some (mkPos (Some 1) 1)) /\
  findLineInDiff text 2 = Returned (Some (mkPos None 2)) /\
  findLineInDiff text 3 = Returned (Some (mkPos (Some 2) 3)) /\
  findLineInDiff text 4 = Returned (Some (mkPos (Some 4) 4)) /\
  findLineInDiff text 99 = Returned None.
Proof. repeat split; vm_compute; reflexivity. Qed.

(** Segments that yield no match are passed over. *)
Lemma scanHunks_app_unmatched (pre : list jsstring) (rest : list jsstring) (target : Z) :
  (forall h, In h pre -> forall p, scanHunk h target <> Returned (Some (Matched p))) ->
  scanHunks (pre ++ rest) target = scanHunks rest target.
Proof.
  induction pre as [|h pre IH]; intros Hpre; [reflexivity|].
  cbn [app]. rewrite scanHunks_cons.
  pose proof (Hpre h (or_introl eq_refl)) as Hh.
  assert (IH' : scanHunks (pre ++ rest) target = scanHunks rest target).
  { apply IH. intros h' Hin. apply Hpre. right. exact Hin. }
  destruct (scanHunk_cases h target) as [[_ Hs]|[arr [_ Hs]]]; rewrite Hs in *.
  - exact IH'.
  - destruct (walkLines _ _ _ target) as [q| |]; [|exact IH'|exact IH'].
    exfalso. apply (Hh q). reflexivity.
Qed.

(** C4.  Hunks are scanned in order and the first match wins: when no
    earlier segment yields a match, whether its walk ran out of lines,
    left by the early exit or never started, the match of a later segment
    is the result. *)
Theorem C4_later_hunk_is_found
        (diffText : jsstring) (target : Z)
        (pre : list jsstring) (hunk : jsstring) (post : list jsstring)
        (p : LinePosition) :
  hunks diffText = pre ++ hunk :: post ->
  (forall h, In h pre -> forall q, scanHunk h target <> Returned (Some (Matched q))) ->
  scanHunk hunk target = Returned (Some (Matched p)) ->
  findLineInDiff diffText target = Returned (Some p).
Proof.
  intros Hh Hpre Hm. rewrite findLineInDiff_hunks, Hh.
  rewrite scanHunks_app_unmatched by exact Hpre.
  rewrite scanHunks_cons, Hm. reflexivity.
Qed.

Lemma C4_later_hunk_is_found_witness :
  scanHunk (nth 0 (hunks twoHunkDiff) []) 12 = Returned (Some EarlyExit) /\
  findLineInDiff twoHunkDiff 12 = Returned (Some (mkPos None 12)).
Proof.
  split; [vm_compute; reflexivity|].
  apply (C4_later_hunk_is_found twoHunkDiff 12
           [nth 0 (hunks twoHunkDiff) []] (nth 1 (hunks twoHunkDiff) []) []).
  - vm_compute; reflexivity.
  - intros h [Hh|[]] q. subst h. vm_compute. discriminate.
  - vm_compute; reflexivity.
Defined.

(** C5.  [findLineInDiff] returns on every text and every target, and it
    returns null on the empty text. *)
Theorem C5_findLineInDiff_total (diffText : jsstring) (target : Z) :
  (exists r, findLineInDiff diffText target = Returned r) /\
  findLineInDiff [] target = Returned None.
Proof.
  split; [|reflexivity].
  rewrite findLineInDiff_hunks.
  induction (hunks diffText) as [|h rest IH].
  - exists None. reflexivity.
  - rewrite scanHunks_cons.
    destruct (scanHunk_cases h target) as [[_ Hs]|[arr [_ Hs]]]; rewrite Hs.
    + exact IH.
    + destruct (walkLines _ _ _ target) as [q| |]; [|exact IH|exact IH].
      exists (Some q). reflexivity.
Qed.

(** A walk that starts above the target finds nothing. *)
Lemma walkLines_above (lines : list jsstring) (oldL newL target : Z) :
  target < newL ->
  forall p, walkLines lines oldL newL target <> Matched p.
Proof.
  intros Hlt p. destruct lines as [|l rest]; [discriminate|].
  cbn [walkLines].
  replace (newL =? target) with false by (symmetry; apply Z.eqb_neq; lia).
  replace (newL >? target) with true by (symmetry; apply Z.gtb_lt; lia).
  replace (newL + 1 >? target) with true by (symmetry; apply Z.gtb_lt; lia).
  destruct (startsWith l ch_minus); [discriminate|].
  destruct (startsWith l ch_plus); discriminate.
Qed.

(** What [parseInt] is applied to: the result array of a header match
    holds the matched text and two non-empty runs of digits. *)
Lemma headerMatch_captures (hunk : jsstring) (arr : list jsstring) :
  jsMatch hunk headerPattern = Some arr ->
  exists occ N C,
    arr = [occ; N; C] /\ isHeader N C occ /\
    nth 1 arr [] = N /\ nth 2 arr [] = C.
Proof.
  intros H. apply execFrom_header_inv in H.
  destruct H as [b [N [C [occ [a [[_ Hocc] [_ Harr]]]]]]].
  exists occ, N, C. subst arr. repeat split. exact Hocc.
Qed.

Lemma parseInt_nonneg (ds : jsstring) : 0 <= parseInt ds.
Proof.
  unfold parseInt.
  assert (H : forall acc, 0 <= acc ->
                          0 <= fold_left (fun a c => 10 * a + digitValue c) ds acc).
  { induction ds as [|c ds IH]; intros acc Hacc; [exact Hacc|].
    cbn [fold_left]. apply IH. unfold digitValue.
    pose proof (N2Z.is_nonneg (c - 48)). lia. }
  apply H. lia.
Qed.

(** A target below zero is found in no text at all. *)
Lemma negative_target_not_found (diffText : jsstring) (target : Z) :
  target < 0 -> findLineInDiff diffText target = Returned None.
Proof.
  intros Ht. rewrite findLineInDiff_hunks.
  induction (hunks diffText) as [|h rest IH]; [reflexivity|].
  rewrite scanHunks_cons.
  destruct (scanHunk_cases h target) as [[_ Hs]|[arr [Hm Hs]]]; rewrite Hs.
  - exact IH.
  - destruct (walkLines _ _ _ target) as [q| |] eqn:Ew; [|exact IH|exact IH].
    exfalso. apply (walkLines_above _ _ _ target) in Ew; [exact Ew|].
    pose proof (parseInt_nonneg (nth 2 arr [])). lia.
Qed.

(** Target zero is found where a header declares the new start 0, as the
    diff of a deleted file does: the empty piece after the last newline
    counts as a context line. *)
Lemma zero_target_with_new_start_zero :
  findLineInDiff deletedFileDiff 0 = Returned (Some (mkPos (Some 4) 0)).
Proof. vm_compute; reflexivity. Qed.

(** C8.  When the start values of every header are at least 1, a target
    of zero or below is not found. *)
Theorem C8_nonpositive_target_not_found (diffText : jsstring) (target : Z) :
  (forall hunk arr,
      In hunk (hunks diffText) ->
      jsMatch hunk headerPattern = Some arr ->
      1 <= parseInt (nth 1 arr []) /\ 1 <= parseInt (nth 2 arr [])) ->
  target <= 0 ->
  findLineInDiff diffText target = Returned None.
Proof.
  intros Hhdr Ht. rewrite findLineInDiff_hunks.
  induction (hunks diffText) as [|h rest IH]; [reflexivity|].
  rewrite scanHunks_cons.
  assert (IH' : scanHunks rest target = Returned None).
  { apply IH. intros hunk arr Hin. apply Hhdr. right. exact Hin. }
  destruct (scanHunk_cases h target) as [[_ Hs]|[arr [Hm Hs]]]; rewrite Hs.
  - exact IH'.
  - destruct (Hhdr h arr (or_introl eq_refl) Hm) as [_ Hnew].
    destruct (walkLines _ _ _ target) as [q| |] eqn:Ew; [|exact IH'|exact IH'].
    exfalso. apply (walkLines_above _ _ _ target) in Ew; [exact Ew|lia].
Qed.

Lemma C8_nonpositive_target_not_found_witness :
  findLineInDiff sampleDiff 0 = Returned None.
Proof.
  apply C8_nonpositive_target_not_found; [|lia].
  intros hunk arr Hin. vm_compute in Hin. destruct Hin as [Hh|[]]. subst hunk.
  vm_compute. intros H; inversion H; subst arr. split; discriminate.
Defined.

(** ** Where the text is cut *)

Local Open Scope nat_scope.

Lemma cutMarks_cases (bol : bool) (c : code_unit) (t : jsstring) :
  (bol = true /\ c = ch_at /\
   exists rest, t = ch_at :: rest /\
     cutMarks bol (c :: t) =
     ([], fst (cutMarks false rest) :: snd (cutMarks false rest))) \/
  (~ (bol = true /\ firstn 2 (c :: t) = [ch_at; ch_at]) /\
   cutMarks bol (c :: t) =
   (c :: fst (cutMarks (isLineTerminator c) t), snd (cutMarks (isLineTerminator c) t))).
Proof.
  assert (Hkeep : (let '(h, hs) := cutMarks (isLineTerminator c) t in (c :: h, hs)) =
                  (c :: fst (cutMarks (isLineTerminator c) t),
                   snd (cutMarks (isLineTerminator c) t))).
  { destruct (cutMarks (isLineTerminator c) t); reflexivity. }
  cbn [cutMarks]. destruct bol; cbn [andb].
  - destruct (N.eqb_spec c ch_at) as [Ec|Ec].
    + destruct t as [|c' rest].
      * right. split; [|exact Hkeep]. intros [_ H]. discriminate.
      * destruct (N.eqb_spec c' ch_at) as [Ec'|Ec'].
        -- left. subst c c'. repeat split. exists rest. split; [reflexivity|].
           destruct (cutMarks false rest); reflexivity.
        -- right. split; [|exact Hkeep]. intros [_ H]. inversion H. contradiction.
    + right. split; [|exact Hkeep]. intros [_ H].
      destruct t; inversion H; contradiction.
  - right. split; [|exact Hkeep]. intros [H _]. discriminate.
Qed.

Lemma markOffsets_ge (hs : list jsstring) :
  forall p i, In i (markOffsets p hs) -> p <= i.
Proof.
  induction hs as [|h r IH]; intros p i; [intros []|].
  cbn [markOffsets]. intros [E|Hin]; [lia|].
  apply IH in Hin. lia.
Qed.

Lemma markOffsets_shift (k : nat) (hs : list jsstring) :
  forall p i, In i (markOffsets p hs) <-> In (k + i) (markOffsets (k + p) hs).
Proof.
  induction hs as [|h r IH]; intros p i; [reflexivity|].
  cbn [markOffsets In]. rewrite (IH (p + 2 + length h) i).
  replace (k + (p + 2 + length h)) with (k + p + 2 + length h) by lia.
  split; (intros [E|H]; [left; lia|right; exact H]).
Qed.

Lemma cutMarks_spec (n : nat) :
  forall s, length s <= n ->
  forall bol,
    s = fst (cutMarks bol s)
          ++ concat (map (app [ch_at; ch_at]) (snd (cutMarks bol s))) /\
    forall i, markAtB bol s i <->
              In i (markOffsets (length (fst (cutMarks bol s))) (snd (cutMarks bol s))).
Proof.
  induction n as [|n IH]; intros s Hlen bol.
  - destruct s; [|simpl in Hlen; lia]. split; [reflexivity|].
    intros i. unfold markAtB. cbn [cutMarks fst snd markOffsets In].
    split; [|intros []]. intros [_ H]. destruct i; discriminate.
  - destruct s as [|c t].
    { split; [reflexivity|].
      intros i. unfold markAtB. cbn [cutMarks fst snd markOffsets In].
      split; [|intros []]. intros [_ H]. destruct i; discriminate. }
    destruct (cutMarks_cases bol c t) as [[Hb [Hc [rest [Ht Hcut]]]]|[Hno Hcut]];
      rewrite Hcut; cbn [fst snd].
    + subst bol c t.
      destruct (IH rest ltac:(simpl in Hlen; lia) false) as [Htxt Hmarks].
      split.
      * cbn [map concat app]. do 2 f_equal. exact Htxt.
      * intros i. cbn [markOffsets In length Nat.add].
        destruct i as [|[|j]].
        -- split; [intros _; left; reflexivity|].
           intros _. split; reflexivity.
        -- split.
           ++ intros [[x [Hx Hlt]] _]. cbn in Hx. inversion Hx; subst x. discriminate.
           ++ intros [E|Hin]; [discriminate|]. apply markOffsets_ge in Hin. lia.
        -- assert (Hsame : markAtB true (ch_at :: ch_at :: rest) (S (S j)) <->
                           markAtB false rest j).
           { unfold markAtB. cbn [skipn]. split.
             - intros [Hls Hat]. split; [|exact Hat].
               destruct j as [|j']; cbn [lineStartAt] in *; [|exact Hls].
               destruct Hls as [x [Hx Hlt]]. cbn in Hx. inversion Hx; subst x. discriminate.
             - intros [Hls Hat]. split; [|exact Hat].
               destruct j as [|j']; cbn [lineStartAt] in *; [discriminate|exact Hls]. }
           rewrite Hsame, (Hmarks j). split.
           ++ intros Hin. right.
              apply (proj1 (markOffsets_shift 2 _ (length (fst (cutMarks false rest))) j)).
              exact Hin.
           ++ intros [E|Hin]; [discriminate|].
              apply (proj2 (markOffsets_shift 2 _ (length (fst (cutMarks false rest))) j)).
              exact Hin.
    + destruct (IH t ltac:(simpl in Hlen; lia) (isLineTerminator c)) as [Htxt Hmarks].
      split.
      * cbn [app]. f_equal. exact Htxt.
      * intros i. cbn [length].
        destruct i as [|j].
        -- split.
           ++ intros [Hls Hat]. exfalso. apply Hno. split; [exact Hls|exact Hat].
           ++ intros Hin. apply markOffsets_ge in Hin. lia.
        -- assert (Hsame : markAtB bol (c :: t) (S j) <->
                           markAtB (isLineTerminator c) t j).
           { unfold markAtB. cbn [skipn]. split.
             - intros [Hls Hat]. split; [|exact Hat].
               destruct j as [|j']; cbn [lineStartAt] in *; [|exact Hls].
               destruct Hls as [x [Hx Hlt]]. cbn in Hx. inversion Hx; subst x. exact Hlt.
             - intros [Hls Hat]. split; [|exact Hat].
               destruct j as [|j']; cbn [lineStartAt] in *; [|exact Hls].
               exists c. split; [reflexivity|exact Hls]. }
           rewrite Hsame, (Hmarks j).
           apply (markOffsets_shift 1 _ (length (fst (cutMarks (isLineTerminator c) t))) j).
Qed.

Local Open Scope Z_scope.

(** A segment in which the header pattern occurs nowhere is passed over,
    and the segments around it are scanned as if it were not there. *)
Lemma unmatched_segment_is_skipped
      (pre : list jsstring) (hunk : jsstring) (post : list jsstring) (target : Z) :
  jsMatch hunk headerPattern = None ->
  scanHunk hunk target = Returned None /\
  scanHunks (pre ++ hunk :: post) target = scanHunks (pre ++ post) target.
Proof.
  intros Hm.
  assert (Hs : scanHunk hunk target = Returned None).
  { unfold scanHunk. rewrite Hm. reflexivity. }
  split; [exact Hs|].
  induction pre as [|h pre IH]; cbn [app].
  - rewrite scanHunks_cons, Hs. reflexivity.
  - rewrite !scanHunks_cons, IH. reflexivity.
Qed.

(** C3 (what the code does on a malformed header line).  The one segment
    of [strayHeaderDiff] has a first line that the header pattern does not
    match, yet the segment is not skipped: the pattern is found in a
    context line of the body and target 7 is answered from it. *)
Theorem C3_stray_header_is_used :
  (exists hunk, hunks strayHeaderDiff = [hunk] /\
                jsMatch (headerLine hunk) headerPattern = None) /\
  findLineInDiff strayHeaderDiff 7 = Returned (Some (mkPos (Some 5) 7)).
Proof.
  split; [|vm_compute; reflexivity].
  eexists. split; vm_compute; reflexivity.
Qed.



(** ** postDiscussion *)

Lemma findLineInDiff_returns (diffText : jsstring) (target : Z) :
  exists r, findLineInDiff diffText target = Returned r.
Proof.
  rewrite findLineInDiff_hunks.
  induction (hunks diffText) as [|h rest IH].
  - exists None. reflexivity.
  - rewrite scanHunks_cons.
    destruct (scanHunk_cases h target) as [[_ Hs]|[arr [_ Hs]]]; rewrite Hs.
    + exact IH.
    + destruct (walkLines _ _ _ target) as [q| |]; [|exact IH|exact IH].
      exists (Some q). reflexivity.
Qed.

Lemma positionFor_returns (diffRefs : DiffRefs) (changes : list FileChange)
      (comment : ReviewComment) :
  exists r, positionFor diffRefs changes comment = Returned r.
Proof.
  unfold positionFor.
  destruct (findChange changes comment) as [fc|]; [|eexists; reflexivity].
  destruct (truthy (diff fc)); [|eexists; reflexivity].
  destruct (findLineInDiff_returns (diff fc) (line comment)) as [[li|] Hr];
    rewrite Hr; eexists; reflexivity.
Qed.

Lemma strEq_eq (a : jsstring) : forall b, strEq a b = true <-> a = b.
Proof.
  induction a as [|x a IH]; intros [|y b]; simpl; split; try discriminate; try reflexivity.
  - intros H. apply andb_prop in H. destruct H as [Hx Ha].
    apply N.eqb_eq in Hx. apply IH in Ha. congruence.
  - intros H. inversion H; subst. rewrite N.eqb_refl. simpl. apply IH. reflexivity.
Qed.

Section RunFacts.
Variable svc : service.
Variable mrWebUrl : jsstring.
Variable diffRefs : DiffRefs.
Variable changes : list FileChange.

Lemma postFallbackNote_run (comment : ReviewComment) (body : jsstring) (tr : trace) :
  postFallbackNote svc comment body tr =
  (Returned (accepts svc tr (PostNoteReq body)),
   tr ++ [Sent (PostNoteReq body) (accepts svc tr (PostNoteReq body));
          Logged (if accepts svc tr (PostNoteReq body)
                  then FallbackPosted (file comment) (line comment)
                  else ErrorFallbackFailed)]).
Proof.
  unfold postFallbackNote, tryCatch, bindM, axiosPost, console, retM.
  destruct (accepts svc tr (PostNoteReq body)); rewrite <- app_assoc; reflexivity.
Qed.

Lemma tryPositional_run (comment : ReviewComment) (pd : PositionData) (tr : trace) :
  let url := fileLineUrlOf mrWebUrl diffRefs comment in
  let ok := accepts svc tr (PostDiscussionReq (formatMessage comment url false) pd) in
  tryPositional svc comment url (Some pd) tr =
  (Returned ok, tr ++ positionalEvents comment url pd ok).
Proof.
  unfold tryPositional, tryCatch, bindM, axiosPost, console, retM, positionalEvents.
  cbv zeta.
  destruct (accepts svc tr _); rewrite <- app_assoc; reflexivity.
Qed.

(** One iteration returns, and is one of the three steps. *)
Lemma processComment_step (comment : ReviewComment) (counts : Z * Z) (tr : trace) :
  exists counts' ext,
    processComment svc mrWebUrl diffRefs changes comment counts tr
    = (Returned counts', tr ++ ext) /\
    commentStep svc mrWebUrl diffRefs changes comment tr counts counts' ext.
Proof.
  destruct counts as [s f]. unfold processComment.
  destruct (positionFor_returns diffRefs changes comment) as [[pd|] Hpos].
  - unfold bindM at 1. unfold liftC. rewrite Hpos.
    unfold bindM at 1. rewrite tryPositional_run.
    destruct (accepts svc tr
                (PostDiscussionReq
                   (formatMessage comment (fileLineUrlOf mrWebUrl diffRefs comment) false)
                   pd))
      eqn:Eacc.
    + eexists. eexists. split; [reflexivity|].
      apply StepPositional; assumption.
    + unfold bindM. rewrite postFallbackNote_run. unfold retM.
      eexists. eexists. split; [rewrite <- app_assoc; reflexivity|].
      apply StepRejected; [assumption|assumption|reflexivity].
  - unfold bindM at 1. unfold liftC. rewrite Hpos.
    unfold bindM at 1. unfold tryPositional, retM at 1.
    unfold bindM. rewrite postFallbackNote_run. unfold retM.
    eexists. eexists. split; [reflexivity|].
    apply StepFallback; [assumption|reflexivity].
Qed.
End RunFacts.

Lemma countPositionalOk_app (a b : trace) :
  countPositionalOk (a ++ b) = countPositionalOk a + countPositionalOk b.
Proof.
  induction a as [|e a IH]; [reflexivity|].
  cbn [app countPositionalOk]. destruct e as [[| | |] [|]|]; rewrite ?IH; lia.
Qed.

Lemma countNotesOk_app (a b : trace) :
  countNotesOk (a ++ b) = countNotesOk a + countNotesOk b.
Proof.
  induction a as [|e a IH]; [reflexivity|].
  cbn [app countNotesOk]. destruct e as [[| | |] [|]|]; rewrite ?IH; lia.
Qed.

Lemma commentEvent_more (urlOf : ReviewComment -> jsstring)
      (cs cs' : list ReviewComment) (e : event) :
  (forall c, In c cs -> In c cs') ->
  commentEvent urlOf cs e -> commentEvent urlOf cs' e.
Proof.
  intros Hsub. destruct e as [[| |b pd|b] ok|l]; cbn; try tauto.
  - intros [c [Hin Hb]]. exists c. split; [apply Hsub; exact Hin|exact Hb].
  - intros [c [Hin Hb]]. exists c. split; [apply Hsub; exact Hin|exact Hb].
Qed.

(** What a step does to the counters, and what it leaves in the trace. *)
Lemma commentStep_facts (svc : service) (mrWebUrl : jsstring) (diffRefs : DiffRefs)
      (changes : list FileChange) (comment : ReviewComment) (tr : trace)
      (counts counts' : Z * Z) (ext : trace) :
  commentStep svc mrWebUrl diffRefs changes comment tr counts counts' ext ->
  fst counts' = fst counts + countPositionalOk ext /\
  snd counts' = snd counts + countNotesOk ext /\
  0 <= countPositionalOk ext /\ 0 <= countNotesOk ext /\
  countPositionalOk ext + countNotesOk ext <= 1 /\
  Forall (commentEvent (fileLineUrlOf mrWebUrl diffRefs) [comment]) ext.
Proof.
  assert (Hself : exists c, In c [comment] /\
                            formatMessage comment (fileLineUrlOf mrWebUrl diffRefs comment) true
                            = formatMessage c (fileLineUrlOf mrWebUrl diffRefs c) true).
  { exists comment. split; [left; reflexivity|reflexivity]. }
  assert (Hself' : exists c, In c [comment] /\
                             formatMessage comment (fileLineUrlOf mrWebUrl diffRefs comment) false
                             = formatMessage c (fileLineUrlOf mrWebUrl diffRefs c) false).
  { exists comment. split; [left; reflexivity|reflexivity]. }
  intros [pd s f Hpos Hacc|pd s f ok Hpos Hacc Hok|s f ok Hpos Hok].
  - cbn. repeat split; try lia.
    repeat constructor; cbn; try exact Hself'; discriminate.
  - destruct ok; cbn; repeat split; try lia;
      repeat constructor; cbn; try exact Hself; try exact Hself'; discriminate.
  - destruct ok; cbn; repeat split; try lia;
      repeat constructor; cbn; try exact Hself; discriminate.
Qed.

(** The loop over the comments returns; its counters count the posts
    that went through. *)
Lemma forComments_run (svc : service) (mrWebUrl : jsstring) (diffRefs : DiffRefs)
      (changes : list FileChange) (comments : list ReviewComment) :
  forall counts tr,
  exists counts' ext,
    forComments svc mrWebUrl diffRefs changes comments counts tr
    = (Returned counts', tr ++ ext) /\
    fst counts' = fst counts + countPositionalOk ext /\
    snd counts' = snd counts + countNotesOk ext /\
    0 <= countPositionalOk ext /\ 0 <= countNotesOk ext /\
    countPositionalOk ext + countNotesOk ext <= Z.of_nat (length comments) /\
    Forall (commentEvent (fileLineUrlOf mrWebUrl diffRefs) comments) ext.
Proof.
  induction comments as [|c rest IH]; intros counts tr.
  - exists counts, []. cbn [forComments]. unfold retM. rewrite app_nil_r.
    cbn. repeat split; try lia. constructor.
  - destruct (processComment_step svc mrWebUrl diffRefs changes c counts tr)
      as [c1 [e1 [Hrun Hstep]]].
    destruct (commentStep_facts _ _ _ _ _ _ _ _ _ Hstep)
      as [Hs1 [Hf1 [Hp1 [Hn1 [Hle1 Hev1]]]]].
    destruct (IH c1 (tr ++ e1)) as [c2 [e2 [Hrun2 [Hs2 [Hf2 [Hp2 [Hn2 [Hle2 Hev2]]]]]]]].
    exists c2, (e1 ++ e2). cbn [forComments]. unfold bindM. rewrite Hrun, Hrun2.
    rewrite countPositionalOk_app, countNotesOk_app, app_assoc.
    split; [reflexivity|].
    split; [lia|]. split; [lia|]. split; [lia|]. split; [lia|].
    split; [cbn [length]; lia|].
    apply Forall_app. split.
    + eapply Forall_impl; [|exact Hev1].
      intros e. apply commentEvent_more. intros x [E|[]]. left. exact E.
    + eapply Forall_impl; [|exact Hev2].
      intros e. apply commentEvent_more. intros x Hin. right. exact Hin.
Qed.


(** C6.  When the remote service rejects the positional post of a
    comment, the iteration does not throw: the rejection is logged as a
    warning, the comment is posted again as a fallback note, and the loop
    goes on with the remaining comments and returns. *)
Theorem C6_rejected_positional_falls_back
        (svc : service) (mrWebUrl : jsstring) (diffRefs : DiffRefs)
        (changes : list FileChange) (comment : ReviewComment)
        (rest : list ReviewComment) (counts : Z * Z) (tr : trace)
        (pd : PositionData) :
  positionFor diffRefs changes comment = Returned (Some pd) ->
  accepts svc tr
    (PostDiscussionReq
       (formatMessage comment (fileLineUrlOf mrWebUrl diffRefs comment) false) pd)
  = false ->
  let url := fileLineUrlOf mrWebUrl diffRefs comment in
  let tr1 := tr ++ positionalEvents comment url pd false in
  let ok := accepts svc tr1 (PostNoteReq (formatMessage comment url true)) in
  let tr2 := tr1 ++ fallbackEvents comment url ok in
  let counts' := (fst counts, if ok then snd counts + 1 else snd counts) in
  processComment svc mrWebUrl diffRefs changes comment counts tr
  = (Returned counts', tr2) /\
  forComments svc mrWebUrl diffRefs changes (comment :: rest) counts tr
  = forComments svc mrWebUrl diffRefs changes rest counts' tr2 /\
  exists final ext,
    forComments svc mrWebUrl diffRefs changes rest counts' tr2
    = (Returned final, tr2 ++ ext).
Proof.
  intros Hpos Hacc url tr1 ok tr2 counts'.
  assert (Hrun : processComment svc mrWebUrl diffRefs changes comment counts tr
                 = (Returned counts', tr2)).
  { destruct (processComment_step svc mrWebUrl diffRefs changes comment counts tr)
      as [c1 [e1 [Hrun Hstep]]].
    rewrite Hrun. subst counts' tr2 tr1 ok url.
    destruct Hstep as [pd' s f Hpos' Hacc'|pd' s f ok' Hpos' Hacc' Hok|s f ok' Hpos' Hok].
    - rewrite Hpos in Hpos'. inversion Hpos'; subst pd'. congruence.
    - rewrite Hpos in Hpos'. inversion Hpos'; subst pd'. subst ok'.
      cbn [fst snd]. rewrite app_assoc. reflexivity.
    - rewrite Hpos in Hpos'. discriminate. }
  split; [exact Hrun|]. split.
  - cbn [forComments]. unfold bindM. rewrite Hrun. reflexivity.
  - destruct (forComments_run svc mrWebUrl diffRefs changes rest counts' tr2)
      as [final [ext [Hloop _]]].
    exists final, ext. exact Hloop.
Qed.

Lemma C6_rejected_positional_falls_back_witness :
  let url := fileLineUrlOf (js "https://gitlab.example/g/p") sampleRefs sampleComment in
  processComment rejectPositional (js "https://gitlab.example/g/p") sampleRefs
    sampleChanges sampleComment (0, 0) []
  = (Returned (0, 1),
     positionalEvents sampleComment url samplePosition false
     ++ fallbackEvents sampleComment url true).
Proof.
  exact (proj1 (C6_rejected_positional_falls_back rejectPositional
                  (js "https://gitlab.example/g/p") sampleRefs sampleChanges
                  sampleComment [otherComment] (0, 0) [] samplePosition
                  ltac:(vm_compute; reflexivity) ltac:(reflexivity))).
Defined.

(** The entry [find] selects. *)
Lemma find_first {A : Type} (f : A -> bool) (l : list A) (x : A) :
  find f l = Some x <->
  exists pre post, l = pre ++ x :: post /\ f x = true /\
                   forall y, In y pre -> f y = false.
Proof.
  induction l as [|a l IH]; cbn [find].
  - split; [discriminate|]. intros [pre [post [H _]]]. destruct pre; discriminate.
  - destruct (f a) eqn:Ea.
    + split.
      * intros H; inversion H; subst a. exists [], l.
        split; [reflexivity|]. split; [exact Ea|]. intros y [].
      * intros [pre [post [Hl [Hx Hpre]]]]. destruct pre as [|b pre].
        -- inversion Hl; subst. reflexivity.
        -- inversion Hl; subst b. rewrite (Hpre a (or_introl eq_refl)) in Ea. discriminate.
    + rewrite IH. split.
      * intros [pre [post [Hl [Hx Hpre]]]]. exists (a :: pre), post.
        split; [cbn [app]; rewrite Hl; reflexivity|]. split; [exact Hx|].
        intros y [E|Hin]; [subst y; exact Ea|apply Hpre; exact Hin].
      * intros [pre [post [Hl [Hx Hpre]]]]. destruct pre as [|b pre].
        -- inversion Hl; subst a. rewrite Hx in Ea. discriminate.
        -- inversion Hl; subst b. exists pre, post.
           split; [reflexivity|]. split; [exact Hx|].
           intros y Hin. apply Hpre. right. exact Hin.
Qed.

Lemma eitherPath_true (c : FileChange) (comment : ReviewComment) :
  strEq (new_path c) (file comment) || strEq (old_path c) (file comment) = true <->
  new_path c = file comment \/ old_path c = file comment.
Proof. rewrite orb_true_iff, !strEq_eq. reflexivity. Qed.

Lemma eitherPath_false (c : FileChange) (comment : ReviewComment) :
  strEq (new_path c) (file comment) || strEq (old_path c) (file comment) = false <->
  new_path c <> file comment /\ old_path c <> file comment.
Proof.
  rewrite orb_false_iff. split; intros [H1 H2]; split.
  - intros E. apply strEq_eq in E. congruence.
  - intros E. apply strEq_eq in E. congruence.
  - destruct (strEq (new_path c) (file comment)) eqn:E; [|reflexivity].
    apply strEq_eq in E. contradiction.
  - destruct (strEq (old_path c) (file comment)) eqn:E; [|reflexivity].
    apply strEq_eq in E. contradiction.
Qed.

(** C7 (as the code has it).  The comment's file is matched against the
    first entry, in list order, whose new path or old path is the file, so
    a renamed file is found by its old path; the position of a comment is
    computed from that entry's diff and carries that entry's paths. *)
Theorem C7_first_entry_with_either_path
        (changes : list FileChange) (comment : ReviewComment) :
  (forall fc,
      findChange changes comment = Some fc <->
      exists pre post,
        changes = pre ++ fc :: post /\
        (new_path fc = file comment \/ old_path fc = file comment) /\
        forall c, In c pre ->
                  new_path c <> file comment /\ old_path c <> file comment) /\
  forall diffRefs pd,
    positionFor diffRefs changes comment = Returned (Some pd) ->
    exists fc li,
      findChange changes comment = Some fc /\
      findLineInDiff (diff fc) (line comment) = Returned (Some li) /\
      pos_new_path pd = new_path fc /\ pos_old_path pd = old_path fc /\
      new_line pd = newLine li /\ old_line pd = oldLine li.
Proof.
  split.
  - intros fc. unfold findChange. rewrite find_first. split.
    + intros [pre [post [Hl [Hx Hpre]]]]. exists pre, post.
      split; [exact Hl|]. split; [apply eitherPath_true; exact Hx|].
      intros c Hin. apply eitherPath_false. apply Hpre. exact Hin.
    + intros [pre [post [Hl [Hx Hpre]]]]. exists pre, post.
      split; [exact Hl|]. split; [apply eitherPath_true; exact Hx|].
      intros c Hin. apply eitherPath_false. apply Hpre. exact Hin.
  - intros diffRefs pd. unfold positionFor.
    destruct (findChange changes comment) as [fc|]; [|discriminate].
    destruct (truthy (diff fc)); [|discriminate].
    destruct (findLineInDiff (diff fc) (line comment)) as [[li|]|e] eqn:Ef;
      cbn [bind]; try discriminate.
    intros H; inversion H; subst pd; clear H.
    exists fc, li. split; [reflexivity|]. split; [exact Ef|].
    repeat split; reflexivity.
Qed.

Lemma C7_first_entry_with_either_path_witness :
  findChange renameChanges renameComment = Some renamedEntry.
Proof.
  apply (proj1 (C7_first_entry_with_either_path renameChanges renameComment)).
  exists [], [addedEntry]. split; [reflexivity|].
  split; [right; reflexivity|]. intros c [].
Defined.

(** C7 (as stated).  With a renamed [old.js] listed before a newly added
    [old.js], the entry matched by its old path is selected although a
    later entry has the comment's file as its new path: the new path is
    not tried first over the whole list. *)
Lemma C7_new_path_is_not_tried_first :
  findChange renameChanges renameComment = Some renamedEntry /\
  findNewThenOld renameChanges renameComment = Some addedEntry /\
  findChange renameChanges renameComment <> findNewThenOld renameChanges renameComment.
Proof.
  split; [reflexivity|]. split; [reflexivity|]. discriminate.
Qed.

(** When a fetch fails the run ends in the outer handler: nothing is
    posted, not even the summary. *)
Lemma fetch_failure_is_fatal (svc : service) (comments : list ReviewComment)
      (tr : trace) :
  fetchMr svc = None \/ fetchDiffs svc = None ->
  postDiscussion svc comments tr =
  (Returned tt,
   tr ++ [Sent GetMr (isSome (fetchMr svc)); Sent GetDiffs (isSome (fetchDiffs svc));
          Logged FatalApiError]).
Proof.
  intros H. unfold postDiscussion, tryCatch, bindM, fetchBoth, console.
  destruct (fetchMr svc) as [mr|], (fetchDiffs svc) as [cs|];
    try (destruct H; discriminate);
    rewrite <- app_assoc; reflexivity.
Qed.




(** The run of the witness, event by event: the rejected positional post
    of the first comment is followed by its fallback note, the second
    comment is posted as a note, and the summary reports 2, 0 and 2. *)
Lemma sample_run_summary :
  let run := postDiscussion rejectPositional [sampleComment; otherComment] [] in
  fst run = Returned tt /\
  length (snd run) = 9%nat /\
  nth 8 (snd run) (Logged FatalApiError)
  = Sent (PostNoteReq (summaryBody 2 0 2)) true /\
  countPositionalOk (snd run) = 0 /\
  countNotesOk (snd run) = 3.
Proof. repeat split; vm_compute; reflexivity. Qed.

(** * Further properties *)

(** ** findLineInDiff: which targets are found *)

Local Open Scope Z_scope.



Lemma findLineInDiff_newLine (diffText : jsstring) (target : Z) (p : LinePosition) :
  findLineInDiff diffText target = Returned (Some p) -> newLine p = target.
Proof.
  rewrite findLineInDiff_hunks. intros H.
  destruct (scanHunks_matched _ _ _ H) as [hunk [arr [_ [_ Hw]]]].
  destruct (walkLines_matched _ _ _ _ _ Hw) as [b [ln [a [_ [_ [Ht _]]]]]].
  exact Ht.
Qed.




(** ** findLineInDiff: text without hunks, text before the first hunk *)

Lemma marks_iff_segments (s : jsstring) (bol : bool) :
  (forall i, ~ markAtB bol s i) <-> snd (cutMarks bol s) = [].
Proof.
  destruct (cutMarks_spec (length s) s (Nat.le_refl _) bol) as [_ Hmarks].
  split.
  - intros Hno. destruct (snd (cutMarks bol s)) as [|h r] eqn:E; [reflexivity|].
    exfalso. apply (Hno (length (fst (cutMarks bol s)))).
    apply Hmarks. left. reflexivity.
  - intros E i Hm. apply Hmarks in Hm. rewrite E in Hm. destruct Hm.
Qed.

(** X2.  A text in which no line begins with [@@] has no hunk: every
    target is answered with null. *)
Theorem X2_no_hunk_mark_not_found (diffText : jsstring) (target : Z) :
  (forall i, ~ markAt diffText i) ->
  findLineInDiff diffText target = Returned None.
Proof.
  intros Hno. rewrite findLineInDiff_hunks, hunks_cut.
  apply marks_iff_segments in Hno. rewrite Hno. reflexivity.
Qed.

Lemma X2_no_hunk_mark_not_found_witness :
  findLineInDiff fileHeader 1 = Returned None.
Proof.
  apply X2_no_hunk_mark_not_found.
  apply marks_iff_segments. vm_compute. reflexivity.
Defined.

Lemma markAtB_tail (bol : bool) (c : code_unit) (t : jsstring) (j : nat) :
  markAtB bol (c :: t) (S j) <-> markAtB (isLineTerminator c) t j.
Proof.
  unfold markAtB. cbn [skipn]. split.
  - intros [Hls Hat]. split; [|exact Hat].
    destruct j as [|j']; cbn [lineStartAt] in *; [|exact Hls].
    destruct Hls as [x [Hx Hlt]]. cbn in Hx. inversion Hx; subst x. exact Hlt.
  - intros [Hls Hat]. split; [|exact Hat].
    destruct j as [|j']; cbn [lineStartAt] in *; [|exact Hls].
    exists c. split; [reflexivity|exact Hls].
Qed.

Lemma endsWithTerminator_cons (c d : code_unit) (t : jsstring) :
  endsWithTerminator (c :: d :: t) = endsWithTerminator (d :: t).
Proof.
  unfold endsWithTerminator. cbn [rev].
  destruct (rev t ++ [d]) as [|x r] eqn:E.
  - destruct (rev t); discriminate.
  - reflexivity.
Qed.

Lemma cutMarks_prefix (pre : jsstring) :
  forall bol s,
    endsWithTerminator pre = true ->
    (forall i, ~ markAtB bol pre i) ->
    snd (cutMarks bol (pre ++ s)) = snd (cutMarks true s).
Proof.
  induction pre as [|c t IH]; intros bol s Hend Hno; [discriminate|].
  cbn [app].
  destruct (cutMarks_cases bol c (t ++ s)) as [[Hb [Hc [rest [Ht _]]]]|[_ Hcut]].
  - exfalso. subst bol c. destruct t as [|d t'].
    + discriminate.
    + cbn [app] in Ht. inversion Ht; subst d.
      apply (Hno 0%nat). split; reflexivity.
  - rewrite Hcut. cbn [snd]. destruct t as [|d t'].
    + cbn [app]. unfold endsWithTerminator in Hend. cbn in Hend.
      rewrite Hend. reflexivity.
    + apply IH.
      * rewrite endsWithTerminator_cons in Hend. exact Hend.
      * intros i Hm. apply (Hno (S i)). apply markAtB_tail. exact Hm.
Qed.

(** X3.  What stands before the first hunk is ignored: a prefix that ends
    with a line terminator and has no line beginning with [@@], such as
    the [---] and [+++] file header of a diff, does not change the answer. *)
Theorem X3_text_before_first_hunk_ignored
        (pre diffText : jsstring) (target : Z) :
  endsWithTerminator pre = true ->
  (forall i, ~ markAt pre i) ->
  findLineInDiff (pre ++ diffText) target = findLineInDiff diffText target.
Proof.
  intros Hend Hno. rewrite !findLineInDiff_hunks, !hunks_cut.
  rewrite (cutMarks_prefix pre true diffText Hend Hno). reflexivity.
Qed.

Lemma X3_text_before_first_hunk_ignored_witness :
  findLineInDiff (fileHeader ++ sampleDiff) 3 = findLineInDiff sampleDiff 3.
Proof.
  apply X3_text_before_first_hunk_ignored; [reflexivity|].
  apply marks_iff_segments. vm_compute. reflexivity.
Defined.

(** ** postDiscussion: the shape of a run *)

Lemma forComments_loopRun (svc : service) (mrWebUrl : jsstring) (diffRefs : DiffRefs)
      (changes : list FileChange) (comments : list ReviewComment) :
  forall counts tr,
  exists counts' ext,
    forComments svc mrWebUrl diffRefs changes comments counts tr
    = (Returned counts', tr ++ ext) /\
    loopRun svc mrWebUrl diffRefs changes comments tr counts counts' ext.
Proof.
  induction comments as [|c rest IH]; intros counts tr.
  - exists counts, []. cbn [forComments]. unfold retM. rewrite app_nil_r.
    split; [reflexivity|constructor].
  - destruct (processComment_step svc mrWebUrl diffRefs changes c counts tr)
      as [c1 [e1 [Hrun Hstep]]].
    destruct (IH c1 (tr ++ e1)) as [c2 [e2 [Hrun2 Hloop]]].
    exists c2, (e1 ++ e2). cbn [forComments]. unfold bindM.
    rewrite Hrun, Hrun2, app_assoc. split; [reflexivity|].
    econstructor; eassumption.
Qed.

(** A run whose fetches succeed: the two fetches, the loop, the summary. *)
Lemma postDiscussion_run (svc : service) (comments : list ReviewComment)
      (mr : MrInfo) (changes : list FileChange) (tr : trace) :
  fetchMr svc = Some mr ->
  fetchDiffs svc = Some changes ->
  exists s f ext,
    loopRun svc (beforeFirst (js "/-/merge_requests") (web_url mr)) (diff_refs mr)
      changes comments (tr ++ [Sent GetMr true; Sent GetDiffs true]) (0, 0) (s, f) ext /\
    let ok := accepts svc ((tr ++ [Sent GetMr true; Sent GetDiffs true]) ++ ext)
                (PostNoteReq (summaryBody (Z.of_nat (length comments)) s f)) in
    postDiscussion svc comments tr =
    (Returned tt,
     tr ++ [Sent GetMr true; Sent GetDiffs true] ++ ext
        ++ Sent (PostNoteReq (summaryBody (Z.of_nat (length comments)) s f)) ok
        :: (if ok then [] else [Logged WarnSummaryFailed])).
Proof.
  intros Hmr Hdiffs.
  unfold postDiscussion, tryCatch, bindM at 1, fetchBoth. rewrite Hmr, Hdiffs.
  cbn [isSome].
  destruct (forComments_loopRun svc (beforeFirst (js "/-/merge_requests") (web_url mr))
              (diff_refs mr) changes comments (0, 0)
              (tr ++ [Sent GetMr true; Sent GetDiffs true]))
    as [[s f] [ext [Hloop Hrun]]].
  exists s, f, ext. split; [exact Hrun|].
  unfold bindM. rewrite Hloop. cbn [fst snd].
  unfold postSummary, tryCatch, axiosPost, console. cbv zeta.
  destruct (accepts svc _ _); rewrite <- !app_assoc; reflexivity.
Qed.






Lemma positionFor_anchor (diffRefs : DiffRefs) (changes : list FileChange)
      (c : ReviewComment) (pd : PositionData) :
  positionFor diffRefs changes c = Returned (Some pd) ->
  pos_base_sha pd = base_sha diffRefs /\
  pos_head_sha pd = head_sha diffRefs /\
  pos_start_sha pd = start_sha diffRefs /\
  position_type pd = js "text" /\
  exists fc,
    In fc changes /\
    (new_path fc = file c \/ old_path fc = file c) /\
    pos_new_path pd = new_path fc /\ pos_old_path pd = old_path fc /\
    new_line pd = line c.
Proof.
  unfold positionFor.
  destruct (findChange changes c) as [fc|] eqn:Efind; [|discriminate].
  destruct (truthy (diff fc)); [|discriminate].
  destruct (findLineInDiff (diff fc) (line c)) as [[li|]|e] eqn:Ef;
    cbn [bind]; try discriminate.
  intros H; inversion H; subst pd; clear H. cbn.
  repeat split. exists fc.
  unfold findChange in Efind. apply find_some in Efind. destruct Efind as [Hin Hp].
  split; [exact Hin|]. split; [apply eitherPath_true; exact Hp|].
  repeat split. apply (findLineInDiff_newLine _ _ _ Ef).
Qed.

Lemma loopRun_anchored (svc : service) (mrWebUrl : jsstring) (mr : MrInfo)
      (changes : list FileChange) (comments : list ReviewComment)
      (tr : trace) (counts counts' : Z * Z) (ext : trace) :
  loopRun svc mrWebUrl (diff_refs mr) changes comments tr counts counts' ext ->
  forall b pd ok,
    In (Sent (PostDiscussionReq b pd) ok) ext -> anchored mr changes comments pd.
Proof.
  induction 1 as [|c rest tr counts c1 c2 e1 e2 Hstep Hloop IH];
    intros b pd ok Hin; [destruct Hin|].
  apply in_app_or in Hin. destruct Hin as [Hin|Hin].
  - assert (Hpos : positionFor (diff_refs mr) changes c = Returned (Some pd)).
    { destruct Hstep as [pd' s f Hpos _|pd' s f ok' Hpos _ _|s f ok' _ _];
        cbn in Hin;
        repeat (destruct Hin as [Hin|Hin]; [inversion Hin; subst; try exact Hpos|]);
        try destruct Hin; try destruct ok'; try discriminate. }
    destruct (positionFor_anchor _ _ _ _ Hpos)
      as [H1 [H2 [H3 [H4 [fc [Hfc [Hpath [Hn [Ho Hl]]]]]]]]].
    repeat split; try assumption.
    exists c, fc. repeat split; try assumption. left. reflexivity.
  - destruct (IH b pd ok Hin) as [H1 [H2 [H3 [H4 [c' [fc [Hc Hrest]]]]]]].
    repeat split; try assumption.
    exists c', fc. split; [right; exact Hc|exact Hrest].
Qed.

(** X5.  Every positional post of a run carries the diff refs fetched at
    the start of the run, the position type [text], the two paths of a
    changed file that matches the file of one of the comments, and that
    comment's line as its new line. *)
Theorem X5_positional_posts_are_anchored
        (svc : service) (comments : list ReviewComment)
        (mr : MrInfo) (changes : list FileChange) (tr : trace) :
  fetchMr svc = Some mr ->
  fetchDiffs svc = Some changes ->
  exists ext,
    snd (postDiscussion svc comments tr) = tr ++ ext /\
    forall b pd ok,
      In (Sent (PostDiscussionReq b pd) ok) ext -> anchored mr changes comments pd.
Proof.
  intros Hmr Hdiffs.
  destruct (postDiscussion_run svc comments mr changes tr Hmr Hdiffs)
    as [s [f [ext [Hloop Hrun]]]].
  cbv zeta in Hrun. rewrite Hrun. cbn [snd].
  eexists. split; [reflexivity|].
  intros b pd ok Hin. cbn [app] in Hin.
  destruct Hin as [Hin|[Hin|Hin]]; try discriminate.
  apply in_app_or in Hin. destruct Hin as [Hin|Hin].
  - apply (loopRun_anchored _ _ _ _ _ _ _ _ _ Hloop b pd ok Hin).
  - destruct Hin as [Hin|Hin]; [discriminate|].
    destruct (accepts svc _ _); [destruct Hin|].
    destruct Hin as [Hin|[]]. discriminate.
Qed.

Lemma X5_positional_posts_are_anchored_witness :
  exists ext,
    snd (postDiscussion rejectPositional [sampleComment; otherComment] []) = [] ++ ext /\
    forall b pd ok,
      In (Sent (PostDiscussionReq b pd) ok) ext ->
      anchored sampleMr sampleChanges [sampleComment; otherComment] pd.
Proof.
  exact (X5_positional_posts_are_anchored rejectPositional
           [sampleComment; otherComment] sampleMr sampleChanges [] eq_refl eq_refl).
Defined.

(** X6.  When the fetch of the merge request or of its diffs fails, the
    run ends in the outer handler: the failure is logged as fatal and
    nothing is posted, neither a comment nor the summary. *)
Theorem X6_failed_fetch_posts_nothing
        (svc : service) (comments : list ReviewComment) (tr : trace) :
  fetchMr svc = None \/ fetchDiffs svc = None ->
  exists ext,
    postDiscussion svc comments tr = (Returned tt, tr ++ ext) /\
    countPositionalSent ext = 0 /\ countNotesSent ext = 0 /\
    logLines ext = [FatalApiError].
Proof.
  intros H. rewrite (fetch_failure_is_fatal svc comments tr H).
  eexists. split; [reflexivity|]. repeat split.
Qed.

Lemma X6_failed_fetch_posts_nothing_witness :
  exists ext,
    postDiscussion diffsUnavailable [sampleComment] [] = (Returned tt, [] ++ ext) /\
    countPositionalSent ext = 0 /\ countNotesSent ext = 0 /\
    logLines ext = [FatalApiError].
Proof.
  exact (X6_failed_fetch_posts_nothing diffsUnavailable [sampleComment] []
           (or_intror eq_refl)).
Defined.





Lemma findChange_none (changes : list FileChange) (c : ReviewComment) :
  (forall fc, In fc changes -> new_path fc <> file c /\ old_path fc <> file c) ->
  findChange changes c = None.
Proof.
  intros Hno. unfold findChange.
  destruct (find _ changes) as [fc|] eqn:E; [|reflexivity].
  apply find_some in E. destruct E as [Hin Hp].
  apply eitherPath_true in Hp. destruct (Hno fc Hin) as [H1 H2].
  destruct Hp; contradiction.
Qed.

(** X8.  A comment that cannot be anchored goes straight to the fallback
    note, with no positional attempt: when its file is not among the
    changed files, when the matched file has an empty diff, or when its
    line is not found in the matched file's diff. *)
Theorem X8_unanchored_comment_falls_back
        (svc : service) (mrWebUrl : jsstring) (diffRefs : DiffRefs)
        (changes : list FileChange) (comment : ReviewComment)
        (counts : Z * Z) (tr : trace) :
  (forall fc, In fc changes ->
              new_path fc <> file comment /\ old_path fc <> file comment) \/
  (exists fc, findChange changes comment = Some fc /\
              (diff fc = [] \/
               findLineInDiff (diff fc) (line comment) = Returned None)) ->
  let url := fileLineUrlOf mrWebUrl diffRefs comment in
  let ok := accepts svc tr (PostNoteReq (formatMessage comment url true)) in
  processComment svc mrWebUrl diffRefs changes comment counts tr =
  (Returned (fst counts, if ok then snd counts + 1 else snd counts),
   tr ++ fallbackEvents comment url ok).
Proof.
  intros Hcase url ok.
  assert (Hpos : positionFor diffRefs changes comment = Returned None).
  { unfold positionFor. destruct Hcase as [Hno|[fc [Hfind [Hempty|Hnone]]]].
    - rewrite (findChange_none _ _ Hno). reflexivity.
    - rewrite Hfind, Hempty. reflexivity.
    - rewrite Hfind. destruct (truthy (diff fc)); [|reflexivity].
      rewrite Hnone. reflexivity. }
  destruct (processComment_step svc mrWebUrl diffRefs changes comment counts tr)
    as [c1 [e1 [Hrun Hstep]]].
  rewrite Hrun.
  destruct Hstep as [pd s f Hpos' _|pd s f ok' Hpos' _ _|s f ok' _ Hok].
  - rewrite Hpos in Hpos'. discriminate.
  - rewrite Hpos in Hpos'. discriminate.
  - subst ok'. reflexivity.
Qed.

Lemma X8_unanchored_comment_falls_back_witness :
  let url := fileLineUrlOf (js "https://gitlab.example/g/p") sampleRefs strayComment in
  processComment acceptAll (js "https://gitlab.example/g/p") sampleRefs sampleChanges
    strayComment (0, 0) [] =
  (Returned (0, 1), [] ++ fallbackEvents strayComment url true).
Proof.
  apply (X8_unanchored_comment_falls_back acceptAll (js "https://gitlab.example/g/p")
           sampleRefs sampleChanges strayComment (0, 0) []).
  left. intros fc [E|[]]. subst fc. split; discriminate.
Defined.

(** ** postDiscussion: the links of the fallback notes *)







(** ** The library functions of the methods *)

Local Open Scope N_scope.

(** [trimStart] drops a prefix. *)
Lemma trimStart_suffix (s : jsstring) :
  exists dropped, s = dropped ++ trimStart s /\ forallb isTrimmed dropped = true.
Proof.
  induction s as [|c t [d [Hd Hall]]]; [exists []; split; reflexivity|].
  cbn [trimStart]. destruct (isTrimmed c) eqn:Ec.
  - exists (c :: d). cbn [app forallb]. rewrite Ec, Hall. split; [congruence|reflexivity].
  - exists []. split; reflexivity.
Qed.

Lemma trimStart_head (s : jsstring) (c : code_unit) (t : jsstring) :
  trimStart s = c :: t -> isTrimmed c = false.
Proof.
  induction s as [|x s IH]; cbn [trimStart]; [discriminate|].
  destruct (isTrimmed x) eqn:Ex; [exact IH|].
  intros H; inversion H; subst. exact Ex.
Qed.

Lemma trimStart_fixed (s : jsstring) :
  (forall c t, s = c :: t -> isTrimmed c = false) -> trimStart s = s.
Proof.
  destruct s as [|c t]; [reflexivity|]. intros H. cbn [trimStart].
  rewrite (H c t eq_refl). reflexivity.
Qed.

(** The text [trim] returns neither begins nor ends with a character that
    [trim] removes. *)
Lemma trim_ends (s : jsstring) :
  (forall c t, trim s = c :: t -> isTrimmed c = false) /\
  (forall c t, rev (trim s) = c :: t -> isTrimmed c = false).
Proof.
  unfold trim, trimEnd. split.
  - intros c t H.
    destruct (trimStart_suffix (rev (trimStart s))) as [d [Hd _]].
    apply (f_equal (@rev code_unit)) in Hd. rewrite rev_involutive, rev_app_distr in Hd.
    rewrite H in Hd. cbn [app] in Hd.
    apply (trimStart_head s c (t ++ rev d)). exact Hd.
  - intros c t H. rewrite rev_involutive in H.
    apply (trimStart_head _ _ _ H).
Qed.

Lemma trim_fixed (s : jsstring) :
  (forall c t, s = c :: t -> isTrimmed c = false) ->
  (forall c t, rev s = c :: t -> isTrimmed c = false) ->
  trim s = s.
Proof.
  intros Hh Ht. unfold trim, trimEnd.
  rewrite (trimStart_fixed s Hh), (trimStart_fixed (rev s) Ht).
  apply rev_involutive.
Qed.

Lemma trim_idempotent (s : jsstring) : trim (trim s) = trim s.
Proof. destruct (trim_ends s) as [H1 H2]. apply trim_fixed; assumption. Qed.

Lemma splitOn_nonempty (c : code_unit) (s : jsstring) : splitOn c s <> [].
Proof.
  destruct s as [|x t]; cbn [splitOn]; [discriminate|].
  destruct (x =? c); [discriminate|].
  destruct (splitOn c t); discriminate.
Qed.

Lemma joinWith_cons (sep p : jsstring) (rest : list jsstring) :
  rest <> [] -> joinWith sep (p :: rest) = p ++ sep ++ joinWith sep rest.
Proof. destruct rest; [congruence|reflexivity]. Qed.

Lemma joinWith_head (sep : jsstring) (x : code_unit) (h : jsstring)
      (r : list jsstring) :
  joinWith sep ((x :: h) :: r) = x :: joinWith sep (h :: r).
Proof. destruct r; reflexivity. Qed.

(** Splitting at a character and joining with it gives the text back. *)
Lemma joinWith_splitOn (c : code_unit) (s : jsstring) :
  joinWith [c] (splitOn c s) = s.
Proof.
  induction s as [|x t IH]; [reflexivity|].
  cbn [splitOn]. destruct (x =? c) eqn:Ex.
  - apply N.eqb_eq in Ex. subst x.
    rewrite joinWith_cons by apply splitOn_nonempty.
    rewrite IH. reflexivity.
  - pose proof (splitOn_nonempty c t) as Hne.
    destruct (splitOn c t) as [|h r]; [congruence|].
    rewrite joinWith_head, IH. reflexivity.
Qed.

(** [s.split(c).slice(1).join(c)] is what follows the first [c]. *)
Lemma after_first (c : code_unit) (a b : jsstring) :
  forallb (fun x => negb (x =? c)) a = true ->
  joinWith [c] (skipn 1 (splitOn c (a ++ c :: b))) = b.
Proof.
  intros Ha.
  assert (H : exists h, splitOn c (a ++ c :: b) = h :: splitOn c b).
  { induction a as [|x a IH].
    - exists []. cbn [app splitOn]. rewrite N.eqb_refl. reflexivity.
    - cbn [forallb] in Ha. apply andb_prop in Ha. destruct Ha as [Hx Ha].
      destruct (IH Ha) as [h Hh]. exists (x :: h).
      cbn [app splitOn]. apply negb_true_iff in Hx. rewrite Hx, Hh. reflexivity. }
  destruct H as [h Hh]. rewrite Hh. cbn [skipn]. apply joinWith_splitOn.
Qed.

Lemma dropDotGit_suffix (p : jsstring) : dropDotGit (p ++ js ".git") = p.
Proof.
  unfold dropDotGit, endsWith. rewrite rev_app_distr.
  change (rev (js ".git")) with [116; 105; 103; 46].
  cbn [app isPrefix]. rewrite !N.eqb_refl. cbn [andb].
  rewrite length_app. change (length (js ".git")) with 4%nat.
  replace (length p + 4 - 4)%nat with (length p) by lia.
  rewrite firstn_app, firstn_all, Nat.sub_diag. cbn [firstn]. apply app_nil_r.
Qed.

(** *** encodeURIComponent *)

Lemma hexDigit_unreserved (d : N) : isUnreserved (hexDigit d) = true.
Proof.
  unfold hexDigit.
  assert (H : Forall (fun c => isUnreserved c = true) (js "0123456789ABCDEF")).
  { repeat constructor. }
  generalize (N.to_nat d). intros n.
  destruct (nth_in_or_default n (js "0123456789ABCDEF") 48) as [Hin|Hd].
  - rewrite Forall_forall in H. apply H. exact Hin.
  - rewrite Hd. reflexivity.
Qed.

Lemma percentEncoded_safe (cp : N) : forallb isUriSafe (percentEncoded cp) = true.
Proof.
  unfold percentEncoded. induction (utf8 cp) as [|b bs IH]; [reflexivity|].
  cbn [flat_map percentOctet app forallb]. unfold isUriSafe at 1 2 3.
  rewrite !hexDigit_unreserved. cbn. exact IH.
Qed.

Lemma percentEncoded_nonempty (cp : N) : percentEncoded cp <> [].
Proof.
  unfold percentEncoded, utf8.
  destruct (cp <? 128); [discriminate|].
  destruct (cp <? 2048); [discriminate|].
  destruct (cp <? 65536); discriminate.
Qed.

Lemma encodeURIComponent_safe (n : nat) :
  forall s out,
    (length s <= n)%nat ->
    encodeURIComponent s = Some out ->
    forallb isUriSafe out = true /\ (s <> [] -> out <> []).
Proof.
  induction n as [|n IH]; intros s out Hlen.
  - destruct s; [|simpl in Hlen; lia]. cbn. intros H; inversion H.
    split; [reflexivity|congruence].
  - destruct s as [|c t].
    { cbn. intros H; inversion H. split; [reflexivity|congruence]. }
    cbn [encodeURIComponent].
    destruct (isUnreserved c) eqn:Eu.
    + destruct (encodeURIComponent t) as [r|] eqn:Er; [|discriminate].
      cbn. intros H; inversion H; subst out.
      destruct (IH t r ltac:(simpl in Hlen; lia) Er) as [Hs _].
      split; [|discriminate]. cbn [forallb]. unfold isUriSafe at 1.
      rewrite Eu, Hs. reflexivity.
    + destruct (isTrailSurrogate c); [discriminate|].
      destruct (isLeadSurrogate c).
      * destruct t as [|d t']; [discriminate|].
        destruct (isTrailSurrogate d); [|discriminate].
        destruct (encodeURIComponent t') as [r|] eqn:Er; [|discriminate].
        cbn. intros H; inversion H; subst out.
        destruct (IH t' r ltac:(simpl in Hlen; lia) Er) as [Hs _].
        split.
        -- rewrite forallb_app, percentEncoded_safe, Hs. reflexivity.
        -- intros _ E. apply app_eq_nil in E. destruct E as [E _].
           apply percentEncoded_nonempty in E. exact E.
      * destruct (encodeURIComponent t) as [r|] eqn:Er; [|discriminate].
        cbn. intros H; inversion H; subst out.
        destruct (IH t r ltac:(simpl in Hlen; lia) Er) as [Hs _].
        split.
        -- rewrite forallb_app, percentEncoded_safe, Hs. reflexivity.
        -- intros _ E. apply app_eq_nil in E. destruct E as [E _].
           apply percentEncoded_nonempty in E. exact E.
Qed.

(** ** getProjectId and getCurrentBranch *)

Ltac sys_unfold :=
  unfold tryCatchS, bindS, runCommand, axiosGet, retS, throwS, orThrow, say.

Lemma tryCatchS_bind {A B : Type} (m : Sys A) (k : A -> Sys B)
      (h : thrown -> Sys B) (ev : list sysEvent) :
  tryCatchS (bindS m k) h ev =
  match m ev with
  | (inl a, ev') => tryCatchS (k a) h ev'
  | (inr e, ev') => h e ev'
  end.
Proof. unfold tryCatchS, bindS. destruct (m ev) as [[a|e] ev']; reflexivity. Qed.

(** Reading the remote: [upstream] first, [origin] when that fails. *)
Lemma readRemote_run (env : surroundings) (ev : list sysEvent) :
  tryCatchS
    (out <~~ runCommand env (js "git remote get-url upstream") ;; retS (trim out))
    (fun _ => out <~~ runCommand env (js "git remote get-url origin") ;; retS (trim out))
    ev =
  match execSync env (js "git remote get-url upstream") with
  | Some out => (inl (trim out), ev ++ [Ran (js "git remote get-url upstream") true])
  | None =>
      match execSync env (js "git remote get-url origin") with
      | Some out =>
          (inl (trim out),
           ev ++ [Ran (js "git remote get-url upstream") false;
                  Ran (js "git remote get-url origin") true])
      | None =>
          (inr CommandFailed,
           ev ++ [Ran (js "git remote get-url upstream") false;
                  Ran (js "git remote get-url origin") false])
      end
  end.
Proof.
  sys_unfold. destruct (execSync env (js "git remote get-url upstream")); [reflexivity|].
  destruct (execSync env (js "git remote get-url origin"));
    rewrite <- app_assoc; reflexivity.
Qed.

Lemma getProjectId_detect
      (env : surroundings) (this : ReviewService) (ev : list sysEvent) :
  truthyOpt (projectId this) = false ->
  exists r ext,
    getProjectId env this ev = (inl r, ev ++ ext) /\
    forallb isLocalEvent ext = true /\
    (forall p, r = Some p -> p <> [] /\ forallb isUriSafe p = true) /\
    (execSync env (js "git remote get-url upstream") = None ->
     execSync env (js "git remote get-url origin") = None ->
     r = None /\
     ext = [Ran (js "git remote get-url upstream") false;
            Ran (js "git remote get-url origin") false; Said ErrDetectProject]).
Proof.
  intros Hcfg. unfold getProjectId. rewrite Hcfg.
  assert (Hpath : forall (path : jsstring) evs,
             exists r ext,
               tryCatchS
                 (if truthy path
                  then encoded <~~ orThrow (encodeURIComponent path) UriError ;;
                       retS (Some encoded)
                  else retS None)
                 (fun _ => say ErrDetectProject ;;;; retS None) evs
               = (inl r, evs ++ ext) /\
               forallb isLocalEvent ext = true /\
               (forall p, r = Some p -> p <> [] /\ forallb isUriSafe p = true)).
  { intros path evs. sys_unfold. destruct (truthy path) eqn:Et.
    - destruct (encodeURIComponent path) as [e|] eqn:Ee.
      + exists (Some e), []. rewrite app_nil_r. split; [reflexivity|]. split; [reflexivity|].
        intros p H; inversion H; subst p.
        destruct (encodeURIComponent_safe (length path) path e (Nat.le_refl _) Ee)
          as [Hs Hne].
        split; [apply Hne; destruct path; [discriminate|discriminate]|exact Hs].
      + exists None, [Said ErrDetectProject].
        split; [reflexivity|]. split; [reflexivity|discriminate].
    - exists None, []. rewrite app_nil_r.
      split; [reflexivity|]. split; [reflexivity|discriminate]. }
  assert (Hremote : forall (remote : jsstring) evs,
             exists r ext,
               tryCatchS
                 (path <~~ (if isPrefix (js "git@") remote then
                              retS (dropDotGit
                                      (joinWith (js ":") (skipn 1 (splitOn 58%N remote))))
                            else if isPrefix (js "http") remote then
                              pathname <~~ orThrow (urlPathname env remote) InvalidUrl ;;
                              retS (dropSlashAndDotGit pathname)
                            else retS []) ;;
                  if truthy path
                  then encoded <~~ orThrow (encodeURIComponent path) UriError ;;
                       retS (Some encoded)
                  else retS None)
                 (fun _ => say ErrDetectProject ;;;; retS None) evs
               = (inl r, evs ++ ext) /\
               forallb isLocalEvent ext = true /\
               (forall p, r = Some p -> p <> [] /\ forallb isUriSafe p = true)).
  { intros remote evs.
    destruct (isPrefix (js "git@") remote).
    - apply (Hpath (dropDotGit (joinWith (js ":") (skipn 1 (splitOn 58%N remote))))).
    - destruct (isPrefix (js "http") remote).
      + destruct (urlPathname env remote) as [pathname|] eqn:Eu.
        * destruct (Hpath (dropSlashAndDotGit pathname) evs) as [r [ext [Hrun Hr]]].
          exists r, ext. split; [exact Hrun|exact Hr].
        * exists None, [Said ErrDetectProject].
          split; [reflexivity|]. split; [reflexivity|discriminate].
      + apply (Hpath [] evs). }
  rewrite tryCatchS_bind, readRemote_run.
  destruct (execSync env (js "git remote get-url upstream")) as [out|] eqn:Eup.
  - destruct (Hremote (trim out) (ev ++ [Ran (js "git remote get-url upstream") true]))
      as [r [ext [Hrun [Hloc Hr]]]].
    exists r, ([Ran (js "git remote get-url upstream") true] ++ ext).
    split; [|split; [exact Hloc|split; [exact Hr|discriminate]]].
    rewrite app_assoc. exact Hrun.
  - destruct (execSync env (js "git remote get-url origin")) as [out|] eqn:Eor.
    + destruct (Hremote (trim out)
                  (ev ++ [Ran (js "git remote get-url upstream") false;
                          Ran (js "git remote get-url origin") true]))
        as [r [ext [Hrun [Hloc Hr]]]].
      exists r, ([Ran (js "git remote get-url upstream") false;
                  Ran (js "git remote get-url origin") true] ++ ext).
      split; [|split; [exact Hloc|split; [exact Hr|discriminate]]].
      rewrite app_assoc. exact Hrun.
    + exists None, [Ran (js "git remote get-url upstream") false;
                    Ran (js "git remote get-url origin") false; Said ErrDetectProject].
      split; [|split; [reflexivity|split; [discriminate|intros _ _; split; reflexivity]]].
      unfold say, bindS, retS. rewrite <- !app_assoc. reflexivity.
Qed.

(** X9.  With no project id configured, [getProjectId] never throws: it
    returns null or an id that is not empty and consists of unreserved
    characters and percent signs only (no slash, since the path of the
    remote is URI-encoded); when neither the [upstream] nor the [origin]
    remote can be read it logs the failure and returns null. *)
Theorem X9_detected_project_id_is_safe
        (env : surroundings) (this : ReviewService) (ev : list sysEvent) :
  truthyOpt (projectId this) = false ->
  exists r ext,
    getProjectId env this ev = (inl r, ev ++ ext) /\
    (forall p, r = Some p -> p <> [] /\ forallb isUriSafe p = true) /\
    (execSync env (js "git remote get-url upstream") = None ->
     execSync env (js "git remote get-url origin") = None ->
     r = None /\
     ext = [Ran (js "git remote get-url upstream") false;
            Ran (js "git remote get-url origin") false; Said ErrDetectProject]).
Proof.
  intros Hcfg.
  destruct (getProjectId_detect env this ev Hcfg) as [r [ext [Hrun [_ [Hsafe Hnone]]]]].
  exists r, ext. split; [exact Hrun|]. split; [exact Hsafe|exact Hnone].
Qed.

Lemma X9_detected_project_id_is_safe_witness :
  getProjectId nothingWorks unconfigured [] =
  (inl None,
   [Ran (js "git remote get-url upstream") false;
    Ran (js "git remote get-url origin") false; Said ErrDetectProject]).
Proof.
  destruct (X9_detected_project_id_is_safe nothingWorks unconfigured [] eq_refl)
    as [r [ext [Hrun [_ Hnone]]]].
  destruct (Hnone eq_refl eq_refl) as [Hr Hext].
  rewrite Hrun, Hr, Hext. reflexivity.
Defined.


(** X10.  For an SSH remote [git@host:path.git], read from [upstream] or,
    when that cannot be read, from [origin], the detected project id is
    the URI-encoded [path]: what follows the first colon, without the
    closing [.git]. *)
Theorem X10_ssh_remote_gives_encoded_path
        (env : surroundings) (this : ReviewService) (ev : list sysEvent)
        (out hostPart path encoded : jsstring) :
  truthyOpt (projectId this) = false ->
  execSync env (js "git remote get-url upstream") = Some out \/
  (execSync env (js "git remote get-url upstream") = None /\
   execSync env (js "git remote get-url origin") = Some out) ->
  trim out = js "git@" ++ hostPart ++ [58%N] ++ path ++ js ".git" ->
  forallb (fun x => negb (x =? 58)%N) hostPart = true ->
  path <> [] ->
  encodeURIComponent path = Some encoded ->
  fst (getProjectId env this ev) = inl (Some encoded).
Proof.
  intros Hcfg Hout Htrim Hhost Hpath Henc.
  unfold getProjectId. rewrite Hcfg, tryCatchS_bind, readRemote_run.
  assert (Hrest : forall evs,
             fst (tryCatchS
                    (path0 <~~ (if isPrefix (js "git@") (trim out) then
                                  retS (dropDotGit
                                          (joinWith (js ":")
                                             (skipn 1 (splitOn 58%N (trim out)))))
                                else if isPrefix (js "http") (trim out) then
                                  pathname <~~ orThrow (urlPathname env (trim out))
                                                 InvalidUrl ;;
                                  retS (dropSlashAndDotGit pathname)
                                else retS []) ;;
                     if truthy path0
                     then encoded0 <~~ orThrow (encodeURIComponent path0) UriError ;;
                          retS (Some encoded0)
                     else retS None)
                    (fun _ => say ErrDetectProject ;;;; retS None) evs)
             = inl (Some encoded)).
  { intros evs. rewrite Htrim.
    change (isPrefix (js "git@") (js "git@" ++ hostPart ++ [58%N] ++ path ++ js ".git"))
      with true. cbv iota.
    replace (js "git@" ++ hostPart ++ [58%N] ++ path ++ js ".git")
      with ((js "git@" ++ hostPart) ++ 58%N :: (path ++ js ".git"))
      by (rewrite <- app_assoc; reflexivity).
    change (js ":") with [58%N].
    rewrite after_first
      by (rewrite forallb_app; apply andb_true_intro; split; [reflexivity|exact Hhost]).
    rewrite dropDotGit_suffix.
    sys_unfold. destruct path as [|c t]; [congruence|].
    cbn [truthy]. rewrite Henc. reflexivity. }
  destruct Hout as [Hup|[Hup Hor]].
  - rewrite Hup. apply Hrest.
  - rewrite Hup, Hor. apply Hrest.
Qed.

Lemma X10_ssh_remote_gives_encoded_path_witness :
  fst (getProjectId exampleSurroundings unconfigured []) =
  inl (Some (js "group%2Fsub%2Fproject")).
Proof.
  apply (X10_ssh_remote_gives_encoded_path exampleSurroundings unconfigured []
           (sshRemote ++ [ch_nl]) (js "gitlab.example") (js "group/sub/project")).
  - reflexivity.
  - right. split; reflexivity.
  - vm_compute. reflexivity.
  - reflexivity.
  - discriminate.
  - vm_compute. reflexivity.
Defined.

(** X11.  [getCurrentBranch] never throws.  A branch it returns is the
    trimmed output of the command, so it neither begins nor ends with
    white space or a line break, and it is never [HEAD]; with a detached
    HEAD or a failing command it logs an error and returns null. *)
Theorem X11_current_branch (env : surroundings) (ev : list sysEvent) :
  exists r ext,
    getCurrentBranch env ev = (inl r, ev ++ ext) /\
    (forall b, r = Some b ->
               b <> js "HEAD" /\ trim b = b /\
               exists out, execSync env (js "git rev-parse --abbrev-ref HEAD") = Some out /\
                           b = trim out) /\
    (r = None -> exists l, ext = [Ran (js "git rev-parse --abbrev-ref HEAD")
                                    (isSome (execSync env
                                               (js "git rev-parse --abbrev-ref HEAD")));
                                  Said l] /\
                           sysLevel l = ConsoleError).
Proof.
  unfold getCurrentBranch. sys_unfold.
  destruct (execSync env (js "git rev-parse --abbrev-ref HEAD")) as [out|] eqn:E.
  - destruct (strEq (trim out) (js "HEAD")) eqn:Eh.
    + exists None, [Ran (js "git rev-parse --abbrev-ref HEAD") true; Said ErrDetachedHead].
      rewrite <- app_assoc. split; [reflexivity|]. split; [discriminate|].
      intros _. exists ErrDetachedHead. split; reflexivity.
    + exists (Some (trim out)), [Ran (js "git rev-parse --abbrev-ref HEAD") true].
      split; [reflexivity|]. split; [|discriminate].
      intros b H; inversion H; subst b.
      split; [|split; [apply trim_idempotent|exists out; split; reflexivity]].
      intros Eq. apply strEq_eq in Eq. congruence.
  - exists None, [Ran (js "git rev-parse --abbrev-ref HEAD") false; Said ErrGetBranch].
    rewrite <- app_assoc. split; [reflexivity|]. split; [discriminate|].
    intros _. exists ErrGetBranch. split; reflexivity.
Qed.

Lemma X11_current_branch_witness :
  fst (getCurrentBranch exampleSurroundings []) = inl (Some (js "feature/x")).
Proof.
  destruct (X11_current_branch exampleSurroundings []) as [r [ext [Hrun [Hsome _]]]].
  rewrite Hrun. cbn [fst]. f_equal.
  assert (Hr : r = Some (js "feature/x")).
  { assert (E : fst (getCurrentBranch exampleSurroundings []) = inl r)
      by (rewrite Hrun; reflexivity).
    vm_compute in E. inversion E. reflexivity. }
  exact Hr.
Defined.

(** ** getMrIidByBranch and getMrChanges *)

Lemma fetches_app (a b : list sysEvent) : fetches (a ++ b) = fetches a ++ fetches b.
Proof.
  induction a as [|e a IH]; [reflexivity|].
  cbn [app fetches]. destruct e; rewrite IH; reflexivity.
Qed.

Lemma syncs_app (a b : list sysEvent) : syncs (a ++ b) = syncs a ++ syncs b.
Proof.
  induction a as [|e a IH]; [reflexivity|].
  cbn [app syncs]. destruct e; rewrite IH; reflexivity.
Qed.

Lemma commands_app (a b : list sysEvent) : commands (a ++ b) = commands a ++ commands b.
Proof.
  induction a as [|e a IH]; [reflexivity|].
  cbn [app commands]. destruct e; rewrite IH; reflexivity.
Qed.

Lemma said_only (lines : list sysLine) :
  fetches (map Said lines) = [] /\ syncs (map Said lines) = [] /\
  commands (map Said lines) = [].
Proof. induction lines as [|l r [H1 [H2 H3]]]; cbn; repeat split; assumption. Qed.

Lemma local_only (ext : list sysEvent) :
  forallb isLocalEvent ext = true -> fetches ext = [] /\ syncs ext = [].
Proof.
  induction ext as [|e r IH]; [split; reflexivity|].
  cbn [forallb]. intros H. apply andb_prop in H. destruct H as [He Hr].
  destruct (IH Hr) as [H1 H2]. destruct e; try discriminate; cbn; split; assumption.
Qed.

Lemma warnEach_run (env : surroundings) (mrs : list MrSummary) :
  forall ev, warnEach mrs ev = (inl tt, ev ++ map (fun m => Said (WarnMrLine m)) mrs).
Proof.
  induction mrs as [|m r IH]; intros ev.
  - cbn. unfold retS. rewrite app_nil_r. reflexivity.
  - cbn [warnEach map]. unfold bindS, say. rewrite IH, <- app_assoc. reflexivity.
Qed.

Lemma getMrIidByBranch_run (env : surroundings) (this : ReviewService)
      (branch enc : jsstring) (ev : list sysEvent) :
  truthy branch = true ->
  encodeURIComponent branch = Some enc ->
  exists lines,
    getMrIidByBranch env this (Some branch) ev =
    (inl (firstIid (httpGet env (mrsUrl this enc))),
     ev ++ Said (DebugCheckingMrs branch (mrsUrl this enc))
        :: Fetched (mrsUrl this enc) (isSome (httpGet env (mrsUrl this enc)))
        :: map Said lines).
Proof.
  intros Ht Henc. unfold getMrIidByBranch. rewrite Ht.
  unfold orThrow at 1. rewrite Henc. unfold bindS at 1, retS at 1.
  rewrite tryCatchS_bind. unfold say at 1.
  rewrite tryCatchS_bind. unfold axiosGet.
  destruct (httpGet env (mrsUrl this enc)) as [[[|first others]|cs]|] eqn:Eget.
  - exists [WarnNoOpenMr branch (projectId this)].
    sys_unfold. rewrite <- !app_assoc. reflexivity.
  - destruct others as [|second others].
    + exists []. sys_unfold. rewrite <- !app_assoc. reflexivity.
    + exists (WarnSeveralMrs (length (first :: second :: others)) branch (iid first)
                :: map WarnMrLine (first :: second :: others)).
      unfold tryCatchS, bindS, say, retS.
      rewrite (warnEach_run env). rewrite <- !app_assoc. cbn [app map firstIid isSome].
      rewrite map_map. reflexivity.
  - exists [WarnNoOpenMr branch (projectId this)].
    sys_unfold. rewrite <- !app_assoc. reflexivity.
  - exists [ErrFetchMrIid]. sys_unfold. rewrite <- !app_assoc. reflexivity.
Qed.

(** X12.  For a non-empty branch name [getMrIidByBranch] sends one GET,
    for the URL that carries the URI-encoded name, and returns the id of
    the first merge request of the list in the response; it returns null
    when the list is empty, when the response is no list or when the
    request fails, without throwing.  Its only throw is the URIError of a
    name with an unpaired surrogate, raised before any request, since the
    URL is built outside the try block. *)
Theorem X12_first_open_mr
        (env : surroundings) (this : ReviewService) (branch : jsstring)
        (ev : list sysEvent) :
  truthy branch = true ->
  match encodeURIComponent branch with
  | Some enc =>
      exists ext,
        getMrIidByBranch env this (Some branch) ev =
        (inl (firstIid (httpGet env (mrsUrl this enc))), ev ++ ext) /\
        fetches ext = [(mrsUrl this enc, isSome (httpGet env (mrsUrl this enc)))] /\
        commands ext = [] /\ syncs ext = []
  | None => getMrIidByBranch env this (Some branch) ev = (inr UriError, ev)
  end.
Proof.
  intros Ht. destruct (encodeURIComponent branch) as [enc|] eqn:Henc.
  - destruct (getMrIidByBranch_run env this branch enc ev Ht Henc) as [lines Hrun].
    eexists. split; [exact Hrun|].
    destruct (said_only lines) as [H1 [H2 H3]].
    cbn [fetches commands syncs]. rewrite H1, H2, H3. repeat split.
  - unfold getMrIidByBranch. rewrite Ht. unfold orThrow, bindS, throwS.
    rewrite Henc. reflexivity.
Qed.

Lemma X12_first_open_mr_witness :
  fst (getMrIidByBranch exampleSurroundings configured (Some (js "feature/x")) [])
  = inl (Some (IidNumber 7)).
Proof.
  pose proof (X12_first_open_mr exampleSurroundings configured (js "feature/x") []
                eq_refl) as H.
  change (encodeURIComponent (js "feature/x")) with (Some (js "feature%2Fx")) in H.
  destruct H as [ext [Hrun _]]. rewrite Hrun. reflexivity.
Defined.

(** X13.  [getMrChanges] never throws.  It returns a non-empty list only
    when the id is truthy and the response carries that list as its
    [changes]; a missing, zero or empty id is answered with the empty list
    without any request. *)
Theorem X13_changes_or_empty
        (env : surroundings) (this : ReviewService) (mr : option mrIid)
        (ev : list sysEvent) :
  exists r ext,
    getMrChanges env this mr ev = (inl r, ev ++ ext) /\
    (r <> [] ->
     exists i, mr = Some i /\ truthyIid i = true /\
               httpGet env (changesUrl this i) = Some (ChangesData (Some r))) /\
    ((mr = None \/ exists i, mr = Some i /\ truthyIid i = false) -> ext = []).
Proof.
  unfold getMrChanges. destruct mr as [i|].
  - destruct (truthyIid i) eqn:Ei.
    + assert (Hno : (Some i = None \/ exists i', Some i = Some i' /\ truthyIid i' = false)
                    -> False).
      { intros [H|[i' [H H']]]; [discriminate|inversion H; subst; congruence]. }
      sys_unfold.
      destruct (httpGet env (changesUrl this i)) as [[mrs|[cs|]]|] eqn:Eget.
      * exists [], [Fetched (changesUrl this i) true].
        split; [reflexivity|]. split; [congruence|intros H; destruct (Hno H)].
      * exists cs, [Fetched (changesUrl this i) true].
        split; [reflexivity|]. split; [|intros H; destruct (Hno H)].
        intros _. exists i. split; [reflexivity|]. split; [exact Ei|exact Eget].
      * exists [], [Fetched (changesUrl this i) true].
        split; [reflexivity|]. split; [congruence|intros H; destruct (Hno H)].
      * exists [], [Fetched (changesUrl this i) false; Said ErrFetchChanges].
        rewrite <- app_assoc.
        split; [reflexivity|]. split; [congruence|intros H; destruct (Hno H)].
    + exists [], []. rewrite app_nil_r. split; [reflexivity|].
      split; [congruence|reflexivity].
  - exists [], []. rewrite app_nil_r. split; [reflexivity|].
    split; [congruence|reflexivity].
Qed.

(** ** autoSync *)

Lemma postDiscussion_returns (svc : service) (comments : list ReviewComment)
      (tr : trace) :
  fst (postDiscussion svc comments tr) = Returned tt.
Proof.
  destruct (fetchMr svc) as [mr|] eqn:Emr.
  - destruct (fetchDiffs svc) as [cs|] eqn:Ecs.
    + destruct (postDiscussion_run svc comments mr cs tr Emr Ecs) as [s [f [ext [_ H]]]].
      cbv zeta in H. rewrite H. reflexivity.
    + rewrite (fetch_failure_is_fatal svc comments tr (or_intror Ecs)). reflexivity.
  - rewrite (fetch_failure_is_fatal svc comments tr (or_introl Emr)). reflexivity.
Qed.

Lemma runPostDiscussion_run (env : surroundings) (this : ReviewService) (mr : mrIid)
      (comments : list ReviewComment) (ev : list sysEvent) :
  runPostDiscussion env this mr comments ev =
  (inl tt,
   ev ++ [Synced (snd (postDiscussion (discussionsOf env (projectId this) mr)
                         comments []))]).
Proof.
  unfold runPostDiscussion.
  pose proof (postDiscussion_returns (discussionsOf env (projectId this) mr) comments [])
    as H.
  destruct (postDiscussion (discussionsOf env (projectId this) mr) comments [])
    as [r tr].
  cbn [fst snd] in *. rewrite H. reflexivity.
Qed.

Lemma bindS_inl {A B : Type} (m : Sys A) (k : A -> Sys B) (ev ev' : list sysEvent)
      (a : A) :
  m ev = (inl a, ev') -> bindS m k ev = k a ev'.
Proof. intros H. unfold bindS. rewrite H. reflexivity. Qed.

Lemma bindS_inr {A B : Type} (m : Sys A) (k : A -> Sys B) (ev ev' : list sysEvent)
      (e : thrown) :
  m ev = (inr e, ev') -> bindS m k ev = (inr e, ev').
Proof. intros H. unfold bindS. rewrite H. reflexivity. Qed.

Lemma getProjectId_any (env : surroundings) (this : ReviewService)
      (ev : list sysEvent) :
  exists r ext,
    getProjectId env this ev = (inl r, ev ++ ext) /\
    forallb isLocalEvent ext = true /\
    (forall p, r = Some p -> truthy p = true) /\
    (truthyOpt (projectId this) = true -> r = projectId this /\ ext = []).
Proof.
  destruct (truthyOpt (projectId this)) eqn:Ecfg.
  - exists (projectId this), []. unfold getProjectId. rewrite Ecfg, app_nil_r.
    split; [reflexivity|]. split; [reflexivity|]. split; [|split; reflexivity].
    intros p Hp. rewrite Hp in Ecfg. exact Ecfg.
  - destruct (getProjectId_detect env this ev Ecfg) as [r [ext [Hrun [Hloc [Hsafe _]]]]].
    exists r, ext. split; [exact Hrun|]. split; [exact Hloc|]. split; [|discriminate].
    intros p Hp. destruct (Hsafe p Hp) as [Hne _]. destruct p; [congruence|reflexivity].
Qed.

Lemma getCurrentBranch_any (env : surroundings) (ev : list sysEvent) :
  exists r ext,
    getCurrentBranch env ev = (inl r, ev ++ ext) /\ forallb isLocalEvent ext = true.
Proof.
  unfold getCurrentBranch. sys_unfold.
  destruct (execSync env (js "git rev-parse --abbrev-ref HEAD")) as [out|].
  - destruct (strEq (trim out) (js "HEAD")).
    + eexists. eexists. rewrite <- app_assoc. split; reflexivity.
    + eexists. eexists. split; reflexivity.
  - eexists. eexists. rewrite <- app_assoc. split; reflexivity.
Qed.

Lemma getMrIidByBranch_any (env : surroundings) (this : ReviewService)
      (branch : option jsstring) (ev : list sysEvent) :
  exists r ext,
    getMrIidByBranch env this branch ev = (r, ev ++ ext) /\ syncs ext = [].
Proof.
  destruct branch as [b|].
  - destruct (truthy b) eqn:Et.
    + destruct (encodeURIComponent b) as [enc|] eqn:Henc.
      * destruct (getMrIidByBranch_run env this b enc ev Et Henc) as [lines Hrun].
        eexists. eexists. split; [exact Hrun|].
        destruct (said_only lines) as [_ [H2 _]]. cbn [syncs]. exact H2.
      * exists (inr UriError), []. rewrite app_nil_r. split; [|reflexivity].
        unfold getMrIidByBranch. rewrite Et. unfold orThrow, bindS, throwS.
        rewrite Henc. reflexivity.
    + exists (inl None), []. rewrite app_nil_r. split; [|reflexivity].
      unfold getMrIidByBranch. rewrite Et. reflexivity.
  - exists (inl None), []. rewrite app_nil_r. split; reflexivity.
Qed.

(** X14.  With a project id configured and a merge request id given by
    hand, [autoSync] runs no shell command and sends no lookup request:
    after two console lines it runs [postDiscussion] for that project and
    that merge request, and leaves the object as it was. *)
Theorem X14_manual_sync_goes_straight
        (env : surroundings) (this : ReviewService)
        (comments : list ReviewComment) (mr : mrIid) (ev : list sysEvent) :
  truthyOpt (projectId this) = true ->
  truthyIid mr = true ->
  autoSync env this comments (Some mr) ev =
  (inl this,
   ev ++ [Said (InfoProjectAndMr (projectId this) mr);
          Said (InfoSyncing (length comments));
          Synced (snd (postDiscussion (discussionsOf env (projectId this) mr)
                         comments []))]).
Proof.
  intros Hcfg Hmr. unfold autoSync.
  assert (Hid : getProjectId env this ev = (inl (projectId this), ev)).
  { unfold getProjectId. rewrite Hcfg. reflexivity. }
  rewrite (bindS_inl _ _ _ _ _ Hid). rewrite Hcfg, Hmr.
  unfold bindS at 1, retS at 1. rewrite Hmr.
  unfold bindS, say, retS. rewrite runPostDiscussion_run. cbn [projectId].
  rewrite <- !app_assoc. destruct this. reflexivity.
Qed.

Lemma X14_manual_sync_goes_straight_witness :
  autoSync nothingWorks configured [sampleComment] (Some (IidString (js "12"))) [] =
  (inl configured,
   [] ++ [Said (InfoProjectAndMr (projectId configured) (IidString (js "12")));
          Said (InfoSyncing (length [sampleComment]));
          Synced (snd (postDiscussion
                         (discussionsOf nothingWorks (projectId configured)
                            (IidString (js "12")))
                         [sampleComment] []))]).
Proof.
  exact (X14_manual_sync_goes_straight nothingWorks configured [sampleComment]
           (IidString (js "12")) [] eq_refl eq_refl).
Defined.

Lemma autoSync_tail (env : surroundings) (this : ReviewService)
      (comments : list ReviewComment) (found : option mrIid) (ev : list sysEvent) :
  exists ext,
    match found with
    | Some mr =>
        if truthyIid mr then
          say (InfoProjectAndMr (projectId this) mr) ;;;;
          say (InfoSyncing (length comments)) ;;;;
          runPostDiscussion env this mr comments ;;;;
          retS this
        else say ErrNoMr ;;;; retS this
    | None => say ErrNoMr ;;;; retS this
    end ev = (inl this, ev ++ ext) /\
    (syncs ext = [] \/
     exists mr, found = Some mr /\ truthyIid mr = true /\
                syncs ext = [snd (postDiscussion (discussionsOf env (projectId this) mr)
                                    comments [])]).
Proof.
  destruct found as [mr|].
  - destruct (truthyIid mr) eqn:Emr.
    + eexists. split.
      * unfold bindS, say, retS. rewrite runPostDiscussion_run.
        rewrite <- !app_assoc. reflexivity.
      * right. exists mr. split; [reflexivity|]. split; [exact Emr|reflexivity].
    + exists [Said ErrNoMr]. split; [reflexivity|left; reflexivity].
  - exists [Said ErrNoMr]. split; [reflexivity|left; reflexivity].
Qed.

(** X15.  [autoSync] runs [postDiscussion] at most once, and only for a
    project id that is not empty and a merge request id that is truthy; a
    configured project id and a merge request id given by hand are the
    ones it uses.  In every other case, also when the lookup throws,
    nothing is synced. *)
Theorem X15_sync_only_when_determined
        (env : surroundings) (this : ReviewService)
        (comments : list ReviewComment) (manual : option mrIid)
        (ev : list sysEvent) :
  exists r ext,
    autoSync env this comments manual ev = (r, ev ++ ext) /\
    (syncs ext = [] \/
     exists p mr,
       truthy p = true /\ truthyIid mr = true /\
       syncs ext = [snd (postDiscussion (discussionsOf env (Some p) mr) comments [])] /\
       (truthyOpt (projectId this) = true -> projectId this = Some p) /\
       (forall m, manual = Some m -> truthyIid m = true -> mr = m)).
Proof.
  unfold autoSync.
  destruct (getProjectId_any env this ev) as [r0 [ext0 [Hrun0 [Hloc0 [Htr0 Hcfg0]]]]].
  destruct (local_only ext0 Hloc0) as [_ Hs0].
  rewrite (bindS_inl _ _ _ _ _ Hrun0).
  destruct r0 as [p|]; cbn [truthyOpt].
  2:{ exists (inl this), (ext0 ++ [Said ErrProjectRequired]).
      split; [unfold bindS, say, retS; rewrite <- app_assoc; reflexivity|].
      left. rewrite syncs_app, Hs0. reflexivity. }
  rewrite (Htr0 p eq_refl).
  set (this' := mkReviewService (host this) (token this) (Some p)).
  assert (Hp : truthyOpt (projectId this) = true -> projectId this = Some p).
  { intros H. destruct (Hcfg0 H) as [E _]. symmetry. exact E. }
  destruct (match manual with Some i => truthyIid i | None => false end) eqn:Eman.
  - destruct manual as [m|]; [|discriminate].
    unfold bindS at 1, retS at 1.
    destruct (autoSync_tail env this' comments (Some m) (ev ++ ext0)) as [ext [Hrun Hs]].
    exists (inl this'), (ext0 ++ ext). rewrite app_assoc. split; [exact Hrun|].
    rewrite syncs_app, Hs0. cbn [app].
    destruct Hs as [Hs|[mr [Hf [Hmr Hs]]]]; [left; exact Hs|].
    right. exists p, mr. inversion Hf; subst mr.
    repeat split; try assumption.
    + apply (Htr0 p eq_refl).
    + intros m' Hm' _. inversion Hm'. reflexivity.
  - destruct (getCurrentBranch_any env (ev ++ ext0)) as [b [ext1 [Hrun1 Hloc1]]].
    destruct (local_only ext1 Hloc1) as [_ Hs1].
    destruct (getMrIidByBranch_any env this' b (((ev ++ ext0) ++ ext1) ++ [Said (InfoBranch b)]))
      as [r2 [ext2 [Hrun2 Hs2]]].
    assert (Hfound :
              (branch <~~ getCurrentBranch env ;;
               say (InfoBranch branch) ;;;; getMrIidByBranch env this' branch)
                (ev ++ ext0)
              = (r2, (((ev ++ ext0) ++ ext1) ++ [Said (InfoBranch b)]) ++ ext2)).
    { rewrite (bindS_inl _ _ _ _ _ Hrun1). unfold bindS, say. exact Hrun2. }
    assert (Hsync : syncs (ext0 ++ ext1 ++ Said (InfoBranch b) :: ext2) = []).
    { rewrite !syncs_app, Hs0, Hs1. cbn. exact Hs2. }
    destruct r2 as [found|e].
    + rewrite (bindS_inl _ _ _ _ _ Hfound).
      destruct (autoSync_tail env this' comments found
                  ((((ev ++ ext0) ++ ext1) ++ [Said (InfoBranch b)]) ++ ext2))
        as [ext [Hrun Hs]].
      exists (inl this'), ((ext0 ++ ext1 ++ Said (InfoBranch b) :: ext2) ++ ext).
      split.
      * rewrite Hrun. f_equal. rewrite <- !app_assoc. reflexivity.
      * rewrite syncs_app, Hsync. cbn [app].
        destruct Hs as [Hs|[mr [Hf [Hmr Hs]]]]; [left; exact Hs|].
        right. exists p, mr. repeat split; try assumption.
        -- apply (Htr0 p eq_refl).
        -- intros m Hm Hmt. subst manual. rewrite Hmt in Eman. discriminate.
    + rewrite (bindS_inr _ _ _ _ _ Hfound).
      exists (inr e), (ext0 ++ ext1 ++ Said (InfoBranch b) :: ext2).
      split; [f_equal; rewrite <- !app_assoc; reflexivity|left; exact Hsync].
Qed.

Lemma X15_sync_only_when_determined_witness :
  exists r ext,
    autoSync exampleSurroundings unconfigured [sampleComment] None [] = (r, [] ++ ext) /\
    (syncs ext = [] \/
     exists p mr,
       truthy p = true /\ truthyIid mr = true /\
       syncs ext = [snd (postDiscussion (discussionsOf exampleSurroundings (Some p) mr)
                           [sampleComment] [])] /\
       (truthyOpt (projectId unconfigured) = true -> projectId unconfigured = Some p) /\
       (forall m, None = Some m -> truthyIid m = true -> mr = m)).
Proof.
  exact (X15_sync_only_when_determined exampleSurroundings unconfigured
           [sampleComment] None []).
Defined.

(** The run of the example: the project is read from [origin], the branch
    from git, the merge request from the server, and the comment is
    posted on its line. *)
Lemma example_autoSync :
  let run := autoSync exampleSurroundings unconfigured [sampleComment] None [] in
  fst run = inl (mkReviewService (js "https://gitlab.example") (js "secret")
                   (Some (js "group%2Fsub%2Fproject"))) /\
  commands (snd run) = [js "git remote get-url upstream"; js "git remote get-url origin";
                        js "git rev-parse --abbrev-ref HEAD"] /\
  map snd (fetches (snd run)) = [true] /\
  map countPositionalOk (syncs (snd run)) = [1%Z].
Proof. repeat split; vm_compute; reflexivity. Qed.
